(** * task-cli: the record store and the prompt engine

    A shallow embedding of [storage.js] (class [TaskStorage]) and of the
    prompt primitives of [index.js], with the properties of the design
    document checked against them; then the queries of the store and the
    menu handlers that only use the store and the prompts, with
    properties read off the code.

    Conventions of the embedding:
    - a JavaScript [null]/[undefined] field is [None];
    - the tasks file is explicit state, threaded through a small state
      monad, since every operation reloads, mutates and rewrites it;
    - values produced by the environment ([uuidv4()], [new Date()]) are
      arguments of the operation that asks for them;
    - a JavaScript array that is handed around is a reference into a heap;
    - the percentage of [getStats] is computed on IEEE 754 binary64 values
      ([SpecFloat]), as the runtime does;
    - what a prompt paints on the screen is left out: a prompt is what it
      does with the key events and what it resolves with. *)

From Stdlib Require Import ZArith String List Bool Lia Permutation Sorted.
From Stdlib Require Import SpecFloat.
From stdpp Require Import gmap strings list sorting.

Open Scope string_scope.
Open Scope list_scope.

(** ** The task record (the object literal built by [add]) *)

Record Task := {
  id : string;
  title : string;
  description : string;
  priority : string;
  category : string;
  dueDate : option string;
  completed : bool;
  completedAt : option string;
  createdAt : string;
  tags : list string
}.

(** The argument of [add]: every field but [title] may be missing. *)
Module TaskData.
Record t := {
  title : string;
  description : option string;
  priority : option string;
  category : option string;
  dueDate : option string;
  tags : option (list string)
}.
End TaskData.

(** The argument of [update]: an object holding any subset of the fields;
    [Some v] is a supplied field, [None] one that is not there. *)
Module Updates.
Record t := {
  id : option string;
  title : option string;
  description : option string;
  priority : option string;
  category : option string;
  dueDate : option (option string);
  completed : option bool;
  completedAt : option (option string);
  createdAt : option string;
  tags : option (list string)
}.

Definition none : t :=
  {| id := None; title := None; description := None; priority := None;
     category := None; dueDate := None; completed := None;
     completedAt := None; createdAt := None; tags := None |}.
End Updates.

(** ** State passing

    Stateful code is a function from the state before to a result and the
    state after. *)

Definition State (S A : Type) : Type := S -> A * S.

Definition ret {S A} (a : A) : State S A := fun s => (a, s).

Definition bind {S A B} (m : State S A) (k : A -> State S B) : State S B :=
  fun s => let (a, s') := m s in k a s'.

Notation "'let*' x := m 'in' k" := (bind m (fun x => k))
  (at level 10, x name, m at level 100, k at level 200).
Notation "m ;; k" := (bind m (fun _ => k))
  (at level 100, k at level 200, right associativity).

Definition exec {S A} (m : State S A) (s : S) : S := snd (m s).
Definition eval {S A} (m : State S A) (s : S) : A := fst (m s).

(** ** JavaScript operators used by the store *)

Module Js.

(** [s || d] on a possibly missing string: the empty string is falsy. *)
Definition or_string (s : option string) (d : string) : string :=
  match s with
  | Some v => if bool_decide (v = "") then d else v
  | None => d
  end.

(** [s || null] *)
Definition or_null (s : option string) : option string :=
  match s with
  | Some v => if bool_decide (v = "") then None else Some v
  | None => None
  end.

(** [a || []]: an array is always truthy. *)
Definition or_empty {A} (a : option (list A)) : list A := default [] a.

(** Truthiness of a nullable string, as tested by [!a.dueDate]. *)
Definition truthy (s : option string) : bool :=
  match s with
  | Some v => negb (bool_decide (v = ""))
  | None => false
  end.

(** One field of [{ ...old, ...updates }]. *)
Definition spread {A} (old : A) (new : option A) : A := default old new.

(** *** Integer-valued numbers and [NaN]

    The comparator of [sort] only subtracts small integers and time
    values; [None] is [NaN] (what [undefined - 1] or an invalid date
    gives). *)
Definition sub (a b : option Z) : option Z :=
  a' ← a; b' ← b; Some (a' - b')%Z.

(** *** [Array.prototype.sort]

    The language requires a stable sort driven by the sign of
    [comparefn]; a [NaN] answer counts as [+0] (SortCompare).  Stable
    insertion is the model: an element moves right only past elements it
    compares strictly greater than. *)
Section ArraySort.
Context {A : Type} (comparefn : A -> A -> option Z).

Definition SortCompare (x y : A) : Z := default 0%Z (comparefn x y).

Definition after (x y : A) : bool := (0 <? SortCompare x y)%Z.

Fixpoint insert (x : A) (l : list A) : list A :=
  match l with
  | [] => [x]
  | y :: l' => if after x y then y :: insert x l' else x :: y :: l'
  end.

Definition Array_sort (l : list A) : list A := foldr insert [] l.
End ArraySort.

(** *** Arrays as shared objects

    An array value is a reference into a heap; [sort] and [reverse]
    change the array they are called on and return that same
    reference, the spread [[...a]] allocates. *)
Definition ref : Type := positive.

Definition array_from {A} (a : ref) : State (gmap ref (list A)) ref :=
  fun h =>
    let r := fresh (dom h) in
    (r, <[r := default [] (h !! a)]> h).

Definition array_sort {A} (comparefn : A -> A -> option Z) (a : ref)
  : State (gmap ref (list A)) ref :=
  fun h => (a, alter (Array_sort comparefn) a h).

Definition array_reverse {A} (a : ref) : State (gmap ref (list A)) ref :=
  fun h => (a, alter (@rev A) a h).

(** *** Doubles

    [/] and [*] on numbers are the binary64 operations; a length is an
    integer below 2^32 and converts exactly. *)
Definition prec : Z := 53.
Definition emax : Z := 1024.

Definition of_Z (n : Z) : spec_float := binary_normalize prec emax n 0 false.
Definition of_nat (n : nat) : spec_float := of_Z (Z.of_nat n).
Definition div (x y : spec_float) : spec_float := SFdiv prec emax x y.
Definition mul (x y : spec_float) : spec_float := SFmul prec emax x y.

(** [Math.round]: the integer nearest to [x], a tie going up, that is
    the floor of [x + 1/2] computed exactly.  On a finite double
    [±m·2^e]; infinities and [NaN] are not integers and are mapped to 0
    here (no caller reaches them). *)
Definition Math_round (x : spec_float) : Z :=
  match x with
  | S754_finite s m e =>
      let n := cond_Zopp s (Z.pos m) in
      if (0 <=? e)%Z then n * 2 ^ e
      else (2 * n + 2 ^ (- e)) / 2 ^ (- e + 1)
  | _ => 0
  end%Z.

(** *** Strings and array indexing

    [s.includes(sub)]: [sub] starts at some position of [s]. *)
Fixpoint includes (s sub : string) : bool :=
  String.prefix sub s
  || match s with
     | EmptyString => false
     | String _ s' => includes s' sub
     end.

(** [a[i]] for a number [i] that is an integer: [undefined] outside the
    array, a negative index included. *)
Definition at_index {A} (a : list A) (i : Z) : option A :=
  if (i <? 0)%Z then None else a !! Z.to_nat i.

End Js.

(** [{ ...task, ...updates }] *)
Definition merge (t : Task) (u : Updates.t) : Task :=
  {| id := Js.spread (id t) (Updates.id u);
     title := Js.spread (title t) (Updates.title u);
     description := Js.spread (description t) (Updates.description u);
     priority := Js.spread (priority t) (Updates.priority u);
     category := Js.spread (category t) (Updates.category u);
     dueDate := Js.spread (dueDate t) (Updates.dueDate u);
     completed := Js.spread (completed t) (Updates.completed u);
     completedAt := Js.spread (completedAt t) (Updates.completedAt u);
     createdAt := Js.spread (createdAt t) (Updates.createdAt u);
     tags := Js.spread (tags t) (Updates.tags u) |}.

(** ** The files of the store *)

(** What a path holds: nothing, bytes that [JSON.parse] rejects, or the
    serialisation of a task list ([JSON.stringify] followed by
    [JSON.parse] gives the list back). *)
Inductive File :=
  | Missing
  | Unreadable
  | Json (tasks : list Task).

Record Disk := {
  tasksFile : File;
  backupFile : File
}.

(** Every store operation is a computation over the disk. *)
Definition M (A : Type) : Type := State Disk A.

(** The object returned by [getStats]. *)
Module Stats.
Record ByPriority := {
  urgent : nat;
  high : nat;
  medium : nat;
  low : nat
}.

Record t := {
  total : nat;
  completed : nat;
  pending : nat;
  completionRate : Z;
  byPriority : ByPriority;
  categories : gmap string nat
}.
End Stats.

(** The argument of [filter]: each criterion may be missing. *)
Module Criteria.
Record t := {
  status : option string;
  priority : option string;
  category : option string
}.
End Criteria.

Module TaskStorage.

(** [load]: a read or parse failure gives the empty list. *)
Definition load : M (list Task) :=
  fun d =>
    (match tasksFile d with
     | Json tasks => tasks
     | Missing | Unreadable => []
     end, d).

(** [save]: the current primary file, when there is one, is copied over
    the backup before the primary is rewritten. *)
Definition save (tasks : list Task) : M unit :=
  fun d =>
    let backup :=
      match tasksFile d with
      | Missing => backupFile d
      | current => current
      end in
    (tt, {| tasksFile := Json tasks; backupFile := backup |}).

(** [init], run by the constructor once the directory exists. *)
Definition init : M unit :=
  fun d =>
    match tasksFile d with
    | Missing => save [] d
    | _ => (tt, d)
    end.

Definition getAll : M (list Task) := load.

(** The first task with the identifier and its position: what
    [tasks.find(t => t.id === id)] and [tasks.findIndex(...)] look for
    ([None] stands for the [undefined] of [find] and the [-1] of
    [findIndex]). *)
Definition locate (i : string) (tasks : list Task) : option (nat * Task) :=
  list_find (fun t => id t = i) tasks.

Definition find (i : string) (tasks : list Task) : option Task :=
  snd <$> locate i tasks.

Definition findIndex (i : string) (tasks : list Task) : option nat :=
  fst <$> locate i tasks.

Definition getById (i : string) : M (option Task) :=
  let* tasks := load in
  ret (find i tasks).

(** [add]: [uuid] is the value of [uuidv4()], [now] that of
    [new Date().toISOString()]. *)
Definition add (taskData : TaskData.t) (uuid now : string) : M Task :=
  let* tasks := load in
  let task :=
    {| id := uuid;
       title := TaskData.title taskData;
       description := Js.or_string (TaskData.description taskData) "";
       priority := Js.or_string (TaskData.priority taskData) "medium";
       category := Js.or_string (TaskData.category taskData) "General";
       dueDate := Js.or_null (TaskData.dueDate taskData);
       completed := false;
       completedAt := None;
       createdAt := now;
       tags := Js.or_empty (TaskData.tags taskData) |} in
  save (tasks ++ [task]) ;;
  ret task.

Definition update (i : string) (updates : Updates.t) : M (option Task) :=
  let* tasks := load in
  match locate i tasks with
  | Some (index, old) =>
      (* tasks[index] = { ...tasks[index], ...updates } *)
      let tasks := <[index := merge old updates]> tasks in
      save tasks ;;
      ret (tasks !! index)
  | None => ret None
  end.

Definition delete (i : string) : M bool :=
  let* tasks := load in
  let filtered := List.filter (fun t => negb (bool_decide (id t = i))) tasks in
  save filtered ;;
  ret (length filtered <? length tasks)%nat.

(** The task found is an element of [tasks]; assigning to its fields
    changes the array that is saved. *)
Definition toggled (now : string) (t : Task) : Task :=
  let c := negb (completed t) in
  {| id := id t; title := title t; description := description t;
     priority := priority t; category := category t; dueDate := dueDate t;
     completed := c;
     completedAt := if c then Some now else None;
     createdAt := createdAt t; tags := tags t |}.

Definition toggleComplete (i : string) (now : string) : M (option Task) :=
  let* tasks := load in
  match locate i tasks with
  | Some (index, task) =>
      let task := toggled now task in
      save (<[index := task]> tasks) ;;
      ret (Some task)
  | None => ret None
  end.

Definition clearCompleted : M nat :=
  let* tasks := load in
  let pending := List.filter (fun t => negb (completed t)) tasks in
  save pending ;;
  ret (length tasks - length pending)%nat.

(** *** [search] and [filter]

    [String.prototype.toLowerCase] belongs to the runtime and is a
    parameter of the section. *)
Section Search.
Context (toLowerCase : string -> string).

Definition search (query : string) : M (list Task) :=
  let* tasks := load in
  let lowerQuery := toLowerCase query in
  ret (List.filter
         (fun t =>
            Js.includes (toLowerCase (title t)) lowerQuery
            || Js.includes (toLowerCase (description t)) lowerQuery
            || Js.includes (toLowerCase (category t)) lowerQuery
            || existsb (fun tag => Js.includes (toLowerCase tag) lowerQuery) (tags t))
         tasks).

Definition filter (criteria : Criteria.t) : M (list Task) :=
  let* tasks := load in
  let tasks :=
    if bool_decide (Criteria.status criteria = Some "pending") then
      List.filter (fun t => negb (completed t)) tasks
    else if bool_decide (Criteria.status criteria = Some "completed") then
      List.filter (fun t => completed t) tasks
    else tasks in
  let tasks :=
    if Js.truthy (Criteria.priority criteria) then
      List.filter
        (fun t => bool_decide (Some (priority t) = Criteria.priority criteria))
        tasks
    else tasks in
  let tasks :=
    if Js.truthy (Criteria.category criteria) then
      List.filter
        (fun t =>
           bool_decide (Some (toLowerCase (category t))
                        = toLowerCase <$> Criteria.category criteria))
        tasks
    else tasks in
  ret tasks.
End Search.

(** *** [sort]

    [new Date(s)] and [localeCompare] belong to the runtime: the time
    value of a date string ([None] for an invalid date) and the
    collation of two strings are parameters of the section. *)
Section Sort.
Context (Date_getTime : string -> option Z).
Context (localeCompare : string -> string -> Z).

Definition priorityOrder : gmap string Z :=
  {[ "urgent" := 0%Z; "high" := 1%Z; "medium" := 2%Z; "low" := 3%Z ]}.

(** [new Date(v)] for a nullable string; [new Date(null)] is the epoch. *)
Definition Date (v : option string) : option Z :=
  match v with
  | Some s => Date_getTime s
  | None => Some 0%Z
  end.

(** The arrow function handed to [Array.prototype.sort]. *)
Definition comparison (sortBy : string) (a b : Task) : option Z :=
  if bool_decide (sortBy = "priority") then
    Js.sub (priorityOrder !! priority a) (priorityOrder !! priority b)
  else if bool_decide (sortBy = "due") then
    if negb (Js.truthy (dueDate a)) && negb (Js.truthy (dueDate b)) then Some 0%Z
    else if negb (Js.truthy (dueDate a)) then Some 1%Z
    else if negb (Js.truthy (dueDate b)) then Some (-1)%Z
    else Js.sub (Date (dueDate a)) (Date (dueDate b))
  else if bool_decide (sortBy = "date") then
    Js.sub (Date (Some (createdAt a))) (Date (Some (createdAt b)))
  else if bool_decide (sortBy = "title") then
    Some (localeCompare (title a) (title b))
  else Some 0%Z.

Definition sort (tasks : Js.ref) (sortBy : string) (reverse : bool)
  : State (gmap Js.ref (list Task)) Js.ref :=
  let* sorted := Js.array_from tasks in
  let* sorted := Js.array_sort (comparison sortBy) sorted in
  if reverse then Js.array_reverse sorted else ret sorted.

(** The elements of the array that [sort] returns. *)
Definition sorted_elements (tasks : list Task) (sortBy : string) (reverse : bool)
  : list Task :=
  let sorted := Js.Array_sort (comparison sortBy) tasks in
  if reverse then rev sorted else sorted.
End Sort.

(** *** [getStats] *)

Definition count (p : Task -> bool) (tasks : list Task) : nat :=
  length (List.filter p tasks).

Definition getStats : M Stats.t :=
  let* tasks := load in
  let total := length tasks in
  let completed := count completed tasks in
  let pending := (total - completed)%nat in
  let byPriority :=
    {| Stats.urgent := count (fun t => bool_decide (priority t = "urgent")) tasks;
       Stats.high := count (fun t => bool_decide (priority t = "high")) tasks;
       Stats.medium := count (fun t => bool_decide (priority t = "medium")) tasks;
       Stats.low := count (fun t => bool_decide (priority t = "low")) tasks |} in
  let categories :=
    foldl (fun (categories : gmap string nat) t =>
             <[category t := (default 0 (categories !! category t) + 1)%nat]> categories)
          ∅ tasks in
  ret {| Stats.total := total;
         Stats.completed := completed;
         Stats.pending := pending;
         Stats.completionRate :=
           if (0 <? total)%nat
           then Js.Math_round
                  (Js.mul (Js.div (Js.of_nat completed) (Js.of_nat total))
                          (Js.of_nat 100))
           else 0%Z;
         Stats.byPriority := byPriority;
         Stats.categories := categories |}.

End TaskStorage.

(** ** Reading the result of [sort] *)

(** The priority levels, most urgent first ([PRIORITIES] of [index.js]). *)
Definition PRIORITIES : list string := ["urgent"; "high"; "medium"; "low"].

(** [p] is a strictly more urgent level than [q]. *)
Definition more_urgent (p q : string) : Prop :=
  exists i j, PRIORITIES !! i = Some p /\ PRIORITIES !! j = Some q /\ (i < j)%nat.

(** A task has a due date when the field is neither [null] nor empty. *)
Definition dated (t : Task) : bool := Js.truthy (dueDate t).
Definition undated (t : Task) : bool := negb (dated t).

(** Every task without a due date stands after every task with one. *)
Definition undated_last (l : list Task) : Prop :=
  forall i j a b,
    l !! i = Some a -> l !! j = Some b ->
    dated a = true -> dated b = false -> (i < j)%nat.

(** Every task without a due date stands before every task with one. *)
Definition undated_first (l : list Task) : Prop :=
  forall i j a b,
    l !! i = Some a -> l !! j = Some b ->
    dated a = false -> dated b = true -> (i < j)%nat.

(** Orders and classes by an integer key, to state what a sort did. *)
Definition key_le {A} (key : A -> Z) (x y : A) : Prop := (key x <= key y)%Z.
Definition has_key {A} (key : A -> Z) (v : Z) (x : A) : bool := (key x =? v)%Z.

(** The keys that [sort] orders by: the position of the priority in the
    table of [sort], and the time value of the due date. *)
Definition rank (t : Task) : Z :=
  default 0%Z (TaskStorage.priorityOrder !! priority t).

Definition due_time (Date_getTime : string -> option Z) (t : Task) : Z :=
  default 0%Z (TaskStorage.Date Date_getTime (dueDate t)).

(** The due date of a task, when it has one, is a valid date. *)
Definition due_valid (Date_getTime : string -> option Z) (t : Task) : Prop :=
  dated t = true -> is_Some (TaskStorage.Date Date_getTime (dueDate t)).

(** A computation that returns an array leaves [result] in it. *)
Definition yields {A} (m : State (gmap Js.ref (list A)) Js.ref)
    (h : gmap Js.ref (list A)) (result : list A) : Prop :=
  snd (m h) !! fst (m h) = Some result.

(** ** A runtime for examples

    Time values for the date-only form [YYYY-MM-DD] (midnight UTC, in
    milliseconds since the epoch, [NaN] for anything else) and ordinal
    string comparison.  The theorems about [sort] hold for every runtime;
    this one instantiates them. *)
Module Runtime.

Definition digit (c : Ascii.ascii) : option Z :=
  let n := Z.of_nat (Ascii.nat_of_ascii c) in
  if ((48 <=? n) && (n <=? 57))%Z then Some (n - 48)%Z else None.

Fixpoint digits (acc : Z) (s : string) : option Z :=
  match s with
  | EmptyString => Some acc
  | String c s' => d ← digit c; digits (10 * acc + d)%Z s'
  end.

(** Days from 1970-01-01 to a date of the proleptic Gregorian calendar. *)
Definition days_from_civil (y m d : Z) : Z :=
  (let y' := if m <=? 2 then y - 1 else y in
   let era := y' / 400 in
   let yoe := y' - era * 400 in
   let doy := (153 * (if 2 <? m then m - 3 else m + 9) + 2) / 5 + d - 1 in
   let doe := yoe * 365 + yoe / 4 - yoe / 100 + doy in
   era * 146097 + doe - 719468)%Z.

Definition Date_getTime (s : string) : option Z :=
  if bool_decide (String.length s = 10%nat)
     && bool_decide (substring 4 1 s = "-")
     && bool_decide (substring 7 1 s = "-")
  then
    y ← digits 0 (substring 0 4 s);
    m ← digits 0 (substring 5 2 s);
    d ← digits 0 (substring 8 2 s);
    if ((1 <=? m) && (m <=? 12) && (1 <=? d) && (d <=? 31))%Z
    then Some (days_from_civil y m d * 86400000)%Z
    else None
  else None.

Definition localeCompare (a b : string) : Z :=
  match String.compare a b with
  | Lt => (-1)%Z
  | Eq => 0%Z
  | Gt => 1%Z
  end.

(** Lower case of the letters A to Z; other characters stay. *)
Definition lower (c : Ascii.ascii) : Ascii.ascii :=
  let n := Ascii.nat_of_ascii c in
  if ((65 <=? n) && (n <=? 90))%nat then Ascii.ascii_of_nat (n + 32) else c.

Fixpoint toLowerCase (s : string) : string :=
  match s with
  | EmptyString => EmptyString
  | String c s' => String (lower c) (toLowerCase s')
  end.

End Runtime.

(** ** The prompt engine ([index.js]) *)

(** What the [keypress] package hands to a listener: the character typed,
    when the input is a single character, and a key object, when the
    input has a name ([up], [down], [return], [escape], [space], ...). *)
Module Keypress.
Record Key := { name : string }.
Record Event := { ch : option string; key : option Key }.

Definition named (n : string) : Event :=
  {| ch := None; key := Some {| name := n |} |}.

Definition up : Event := named "up".
Definition down : Event := named "down".
Definition enter : Event :=
  {| ch := Some (String (Ascii.ascii_of_nat 13) EmptyString);
     key := Some {| name := "return" |} |}.
Definition escape : Event :=
  {| ch := Some (String (Ascii.ascii_of_nat 27) EmptyString);
     key := Some {| name := "escape" |} |}.
Definition space : Event :=
  {| ch := Some " "; key := Some {| name := "space" |} |}.
(** A printable character without a key name, such as a digit. *)
Definition char (c : string) : Event := {| ch := Some c; key := None |}.
End Keypress.

Module Prompt.
Import Keypress.

(** [process.stdin]: whether it is a terminal, and the key events that
    are still to arrive on it. *)
Record Stdin := {
  isTTY : bool;
  events : list Event
}.

(** A promise awaited by the caller: settled with a value, or still
    pending when the input has run dry. *)
Inductive Promise (R : Type) :=
  | Resolved (r : R)
  | Pending.
Arguments Resolved {R} r.
Arguments Pending {R}.

(** One call of a listener: it keeps listening with a new state, or it
    detaches ([resetStdin]) and resolves the promise. *)
Inductive Step (S R : Type) :=
  | Continue (s : S)
  | Resolve (r : R).
Arguments Continue {S R} s.
Arguments Resolve {S R} r.

(** [process.stdin.on('keypress', onKey)]: the listener sees the events
    in order until it resolves; later events stay in the stream. *)
Fixpoint listen {S R} (onKey : S -> Event -> Step S R) (s : S) (evs : list Event)
  : Promise R * list Event :=
  match evs with
  | [] => (Pending, [])
  | ev :: rest =>
      match onKey s ev with
      | Continue s' => listen onKey s' rest
      | Resolve r => (Resolved r, rest)
      end
  end.

Definition await {S R} (onKey : S -> Event -> Step S R) (s : S)
  : State Stdin (Promise R) :=
  fun stdin =>
    let (p, rest) := listen onKey s (events stdin) in
    (p, {| isTTY := isTTY stdin; events := rest |}).

Definition isInteractive (stdin : Stdin) : bool := isTTY stdin.

(** [{ index, ok }] *)
Module Choice.
Record t := { index : Z; ok : bool }.
End Choice.

(** [{ indexes, ok }] *)
Module Choices.
Record t := { indexes : list Z; ok : bool }.
End Choices.

(** *** [showMenu] *)

Definition showMenu_onKey (options : list string) (selected : Z) (ev : Event)
  : Step Z Choice.t :=
  match key ev with
  | None => Continue selected
  | Some k =>
      if bool_decide (name k = "up") then
        Continue (Z.max 0 (selected - 1))
      else if bool_decide (name k = "down") then
        Continue (Z.min (Z.of_nat (length options) - 1) (selected + 1))
      else if bool_decide (name k = "return") then
        Resolve {| Choice.index := selected; Choice.ok := true |}
      else if bool_decide (name k = "escape") then
        Resolve {| Choice.index := selected; Choice.ok := false |}
      else Continue selected
  end.

Definition showMenu (options : list string) (title : string)
  : State Stdin (Promise Choice.t) :=
  fun stdin =>
    if negb (isInteractive stdin) then
      (Resolved {| Choice.index := 0; Choice.ok := true |}, stdin)
    else await (showMenu_onKey options) 0%Z stdin.

(** *** [multiSelect]

    A JavaScript [Set] enumerates its members in insertion order:
    [add] appends a member that is not there, [delete] takes it out. *)
Definition Set_has (x : Z) (s : list Z) : bool := bool_decide (x ∈ s).
Definition Set_add (x : Z) (s : list Z) : list Z :=
  if Set_has x s then s else s ++ [x].
Definition Set_delete (x : Z) (s : list Z) : list Z :=
  List.filter (fun y => negb (bool_decide (y = x))) s.

Definition toggle (x : Z) (s : list Z) : list Z :=
  if Set_has x s then Set_delete x s else Set_add x s.

Record Multi := { current : Z; selected : list Z }.

Definition multiSelect_onKey (options : list string) (st : Multi) (ev : Event)
  : Step Multi Choices.t :=
  match key ev with
  | None => Continue st
  | Some k =>
      if bool_decide (name k = "up") then
        Continue {| current := Z.max 0 (current st - 1);
                    selected := selected st |}
      else if bool_decide (name k = "down") then
        Continue {| current := Z.min (Z.of_nat (length options) - 1) (current st + 1);
                    selected := selected st |}
      else if bool_decide (ch ev = Some " ") then
        Continue {| current := current st;
                    selected := toggle (current st) (selected st) |}
      else if bool_decide (name k = "return") then
        Resolve {| Choices.indexes := selected st; Choices.ok := true |}
      else if bool_decide (name k = "escape") then
        Resolve {| Choices.indexes := []; Choices.ok := false |}
      else Continue st
  end.

Definition multiSelect (options : list string) (title : string)
  : State Stdin (Promise Choices.t) :=
  fun stdin =>
    if negb (isInteractive stdin) then
      (Resolved {| Choices.indexes := [0%Z]; Choices.ok := true |}, stdin)
    else await (multiSelect_onKey options) {| current := 0; selected := [] |} stdin.

(** *** [confirm] *)

Definition confirm_onKey (opts : list string) (selected : Z) (ev : Event)
  : Step Z Choice.t :=
  match key ev with
  | None => Continue selected
  | Some k =>
      if bool_decide (name k = "up") then
        Continue (Z.max 0 (selected - 1))
      else if bool_decide (name k = "down") then
        Continue (Z.min (Z.of_nat (length opts) - 1) (selected + 1))
      else if bool_decide (name k = "return") then
        Resolve {| Choice.index := selected;
                   Choice.ok := bool_decide (selected = 0%Z) |}
      else Continue selected
  end.

Definition confirm (message : string) (opts : list string)
  : State Stdin (Promise Choice.t) :=
  fun stdin =>
    if negb (isInteractive stdin) then
      (Resolved {| Choice.index := 0; Choice.ok := true |}, stdin)
    else await (confirm_onKey opts) 0%Z stdin.

(** *** [waitForKey]: the first event of any kind resolves. *)

Definition waitForKey_onKey (_ : unit) (ev : Event) : Step unit unit :=
  Resolve tt.

Definition waitForKey : State Stdin (Promise unit) :=
  await waitForKey_onKey tt.

End Prompt.

(** ** The handlers of the menu ([index.js])

    The handlers that only use the store and the prompts.  What they
    print is left out; the text of a row and of a question is only
    painted by the prompt and is a parameter here, as are the runtime
    functions of [sort] and [filter]. *)

(** What a handler works on: the store on disk and standard input. *)
Record World := {
  disk : Disk;
  stdin : Prompt.Stdin
}.

Module App.
Import Keypress Prompt.

Section Handlers.
Context (Date_getTime : string -> option Z).
Context (localeCompare : string -> string -> Z).
Context (toLowerCase : string -> string).
Context (row : Task -> string).
Context (question : string -> nat -> string).

(** [storage.sort(tasks, sortBy)] on an array the handler has just
    loaded: the elements of the array that comes back. *)
Definition sorted (tasks : list Task) (sortBy : string) : list Task :=
  let a : Js.ref := 1%positive in
  let (r, h) :=
    TaskStorage.sort Date_getTime localeCompare a sortBy false {[ a := tasks ]} in
  default [] (h !! r).

(** [res.indexes.forEach(i => tasks[i] && storage.toggleComplete(tasks[i].id))];
    [now k] is the clock at the call for the [k]-th index. *)
Fixpoint toggle_each (tasks : list Task) (now : nat -> string) (k : nat)
    (indexes : list Z) (d : Disk) : Disk :=
  match indexes with
  | [] => d
  | i :: rest =>
      let d' :=
        match Js.at_index tasks i with
        | Some t => exec (TaskStorage.toggleComplete (id t) (now k)) d
        | None => d
        end in
      toggle_each tasks now (S k) rest d'
  end.

(** [res.indexes.forEach(i => sorted[i] && storage.delete(sorted[i].id))] *)
Fixpoint delete_each (sorted : list Task) (indexes : list Z) (d : Disk) : Disk :=
  match indexes with
  | [] => d
  | i :: rest =>
      let d' :=
        match Js.at_index sorted i with
        | Some t => exec (TaskStorage.delete (id t)) d
        | None => d
        end in
      delete_each sorted rest d'
  end.

Definition pending_only : Criteria.t :=
  {| Criteria.status := Some "pending";
     Criteria.priority := None;
     Criteria.category := None |}.

Definition completeTask (now : nat -> string) : State World (Promise unit) :=
  fun w =>
    let tasks := eval (TaskStorage.filter toLowerCase pending_only) (disk w) in
    if bool_decide (length tasks = 0%nat) then (Resolved tt, w)
    else
      let (res, stdin') :=
        multiSelect (map row tasks)
          "Complete - Space to select, Enter to complete" (stdin w) in
      match res with
      | Pending => (Pending, {| disk := disk w; stdin := stdin' |})
      | Resolved res =>
          if negb (Choices.ok res)
             || bool_decide (length (Choices.indexes res) = 0%nat)
          then (Resolved tt, {| disk := disk w; stdin := stdin' |})
          else
            (Resolved tt,
             {| disk := toggle_each tasks now 0 (Choices.indexes res) (disk w);
                stdin := stdin' |})
      end.

Definition deleteTask : State World (Promise unit) :=
  fun w =>
    let tasks := eval TaskStorage.getAll (disk w) in
    if bool_decide (length tasks = 0%nat) then (Resolved tt, w)
    else
      let sorted := sorted tasks "priority" in
      let (res, stdin1) :=
        multiSelect (map row sorted)
          "Delete - Space to select, Enter to delete" (stdin w) in
      match res with
      | Pending => (Pending, {| disk := disk w; stdin := stdin1 |})
      | Resolved res =>
          if negb (Choices.ok res)
             || bool_decide (length (Choices.indexes res) = 0%nat)
          then (Resolved tt, {| disk := disk w; stdin := stdin1 |})
          else
            let (confirmRes, stdin2) :=
              confirm (question "Delete" (length (Choices.indexes res)))
                ["Yes, Delete"; "Cancel"] stdin1 in
            match confirmRes with
            | Pending => (Pending, {| disk := disk w; stdin := stdin2 |})
            | Resolved confirmRes =>
                if negb (Choice.ok confirmRes)
                then (Resolved tt, {| disk := disk w; stdin := stdin2 |})
                else
                  (Resolved tt,
                   {| disk := delete_each sorted (Choices.indexes res) (disk w);
                      stdin := stdin2 |})
            end
      end.

Definition clearCompleted : State World (Promise unit) :=
  fun w =>
    let stats := eval TaskStorage.getStats (disk w) in
    if bool_decide (Stats.completed stats = 0%nat) then (Resolved tt, w)
    else
      let (confirmRes, stdin') :=
        confirm (question "Clear" (Stats.completed stats))
          ["Yes, Clear"; "Cancel"] (stdin w) in
      match confirmRes with
      | Pending => (Pending, {| disk := disk w; stdin := stdin' |})
      | Resolved confirmRes =>
          if negb (Choice.ok confirmRes)
          then (Resolved tt, {| disk := disk w; stdin := stdin' |})
          else
            (Resolved tt,
             {| disk := exec TaskStorage.clearCompleted (disk w);
                stdin := stdin' |})
      end.

End Handlers.
End App.

(** ** The prompts as the design document words them *)

Module PromptSpec.
Import Keypress Prompt.

(** Standard input as a terminal, and as a pipe or a file, with the key
    events that will arrive on it. *)
Definition terminal (evs : list Event) : Stdin :=
  {| isTTY := true; events := evs |}.
Definition piped (evs : list Event) : Stdin :=
  {| isTTY := false; events := evs |}.

Definition lastIndex (options : list string) : Z :=
  Z.of_nat (length options) - 1.

(** Keep [x] within [[lo, hi]]. *)
Definition clamp (lo hi x : Z) : Z :=
  if (x <? lo)%Z then lo else if (hi <? x)%Z then hi else x.

Inductive Command := Up | Down | Confirm | Cancel | Ignored.

Definition command (ev : Event) : Command :=
  match key ev with
  | Some k =>
      if bool_decide (name k = "up") then Up
      else if bool_decide (name k = "down") then Down
      else if bool_decide (name k = "return") then Confirm
      else if bool_decide (name k = "escape") then Cancel
      else Ignored
  | None => Ignored
  end.

(** Single-select: Up/Down move the active index by one, clamped; the
    confirm key accepts the active index, the cancel key declines it;
    any other key is ignored. *)
Definition single_select (options : list string) (active : Z) (ev : Event)
  : Step Z Choice.t :=
  match command ev with
  | Up => Continue (clamp 0 (lastIndex options) (active - 1))
  | Down => Continue (clamp 0 (lastIndex options) (active + 1))
  | Confirm => Resolve {| Choice.index := active; Choice.ok := true |}
  | Cancel => Resolve {| Choice.index := active; Choice.ok := false |}
  | Ignored => Continue active
  end.

(** The event is taken as the toggle key by [multiSelect]: it has a key
    object that is neither [up] nor [down], and its character is a
    space. *)
Definition is_toggle (ev : Event) : bool :=
  match key ev with
  | Some k =>
      negb (bool_decide (name k = "up"))
      && negb (bool_decide (name k = "down"))
      && bool_decide (ch ev = Some " ")
  | None => false
  end.

(** The rows toggled, in the order of the toggles, until the prompt
    resolves. *)
Fixpoint toggles (options : list string) (st : Multi) (evs : list Event)
  : list Z :=
  match evs with
  | [] => []
  | ev :: rest =>
      match multiSelect_onKey options st ev with
      | Continue st' =>
          (if is_toggle ev then [current st] else [])
            ++ toggles options st' rest
      | Resolve _ => []
      end
  end.

(** Each row once, at the place of its last toggle. *)
Fixpoint last_occurrences (l : list Z) : list Z :=
  match l with
  | [] => []
  | x :: l' =>
      if bool_decide (x ∈ l') then last_occurrences l'
      else x :: last_occurrences l'
  end.

Definition times (x : Z) (l : list Z) : nat :=
  length (List.filter (fun y => bool_decide (y = x)) l).

(** The rows that are on after the toggles (toggled an odd number of
    times), ordered by the last time each was toggled on. *)
Definition on_in_toggle_order (ts : list Z) : list Z :=
  List.filter (fun x => Nat.odd (times x ts)) (last_occurrences ts).

End PromptSpec.

(** ** The completion rate as the design document words it *)

(** [round(n / d)] for a positive [d]: the nearest integer, a half going
    up. *)
Definition round_ratio (n d : Z) : Z := ((2 * n + d) / (2 * d))%Z.

Definition completionRate_spec (completed total : nat) : Z :=
  if (0 <? total)%nat
  then round_ratio (100 * Z.of_nat completed) (Z.of_nat total)
  else 0%Z.

(** ** Histories of the store *)

(** The collection an operation sees when it starts from disk [d]. *)
Definition stored (d : Disk) : list Task := eval TaskStorage.load d.

(** The four mutating operations, with what the environment supplied. *)
Inductive Op :=
  | Add (taskData : TaskData.t) (uuid now : string)
  | Update (i : string) (updates : Updates.t)
  | Delete (i : string)
  | Toggle (i : string) (now : string).

Definition step (op : Op) : M unit :=
  match op with
  | Add taskData uuid now => TaskStorage.add taskData uuid now ;; ret tt
  | Update i updates => TaskStorage.update i updates ;; ret tt
  | Delete i => TaskStorage.delete i ;; ret tt
  | Toggle i now => TaskStorage.toggleComplete i now ;; ret tt
  end.

Fixpoint run (ops : list Op) : M unit :=
  match ops with
  | [] => ret tt
  | op :: ops => step op ;; run ops
  end.

(** The register of births: for every identifier, the creation time it
    was given.  It starts from the tasks already stored and grows with
    every [Add]. *)
Definition register (tasks : list Task) : gmap string string :=
  list_to_map (map (fun t => (id t, createdAt t)) tasks).

Fixpoint births (g : gmap string string) (ops : list Op) : gmap string string :=
  match ops with
  | [] => g
  | Add _ uuid now :: ops => births (<[uuid := now]> g) ops
  | _ :: ops => births g ops
  end.

(** [uuidv4] never hands out an identifier twice. *)
Fixpoint well_issued (g : gmap string string) (ops : list Op) : Prop :=
  match ops with
  | [] => True
  | Add _ uuid now :: ops => g !! uuid = None /\ well_issued (<[uuid := now]> g) ops
  | _ :: ops => well_issued g ops
  end.

(** An update that supplies neither [id] nor [createdAt]. *)
Definition keeps_identity (op : Op) : Prop :=
  match op with
  | Update _ updates => Updates.id updates = None /\ Updates.createdAt updates = None
  | _ => True
  end.

(** Identifiers are unique and every task still carries the creation time
    registered for its identifier. *)
Definition identity_kept (g : gmap string string) (d : Disk) : Prop :=
  NoDup (map id (stored d))
  /\ forall t, t ∈ stored d -> g !! id t = Some (createdAt t).

(** Two toggles of [i], at times [now1] and [now2], give the task back
    its [completed] and [completedAt]. *)
Definition toggle_twice_restores (d : Disk) (i now1 now2 : string) : Prop :=
  forall t, eval (TaskStorage.getById i) d = Some t ->
  exists t',
    eval (TaskStorage.getById i)
         (exec (TaskStorage.toggleComplete i now2)
               (exec (TaskStorage.toggleComplete i now1) d)) = Some t'
    /\ completed t' = completed t
    /\ completedAt t' = completedAt t.

(** ** Sample data *)

Module Sample.
Definition T0 : string := "2024-03-01T09:00:00.000Z".
Definition T1 : string := "2024-03-02T09:00:00.000Z".
Definition T2 : string := "2024-03-03T09:00:00.000Z".

Definition rent : TaskData.t :=
  {| TaskData.title := "Pay rent";
     TaskData.description := None;
     TaskData.priority := Some "urgent";
     TaskData.category := Some "Finance";
     TaskData.dueDate := Some "2024-03-01";
     TaskData.tags := None |}.

Definition milk : TaskData.t :=
  {| TaskData.title := "Buy milk";
     TaskData.description := Some "two litres";
     TaskData.priority := None;
     TaskData.category := Some "Shopping";
     TaskData.dueDate := None;
     TaskData.tags := None |}.

(** A new data directory, and the disk once the constructor has run. *)
Definition blank : Disk := {| tasksFile := Missing; backupFile := Missing |}.
Definition fresh_disk : Disk := exec TaskStorage.init blank.

(** One task, added at [T0]. *)
Definition one : Disk := exec (run [Add rent "id-1" T0]) fresh_disk.
(** The same task, completed at [T1]. *)
Definition one_done : Disk := exec (run [Toggle "id-1" T1]) one.
(** Two tasks; the first one completed. *)
Definition two : Disk := exec (run [Add milk "id-2" T1]) one_done.

(** Updates that reach into the identity of a task. *)
Definition redate : Updates.t :=
  {| Updates.id := None; Updates.title := None; Updates.description := None;
     Updates.priority := None; Updates.category := None;
     Updates.dueDate := None; Updates.completed := None;
     Updates.completedAt := None; Updates.createdAt := Some T2;
     Updates.tags := None |}.

Definition rename : Updates.t :=
  {| Updates.id := Some "id-1"; Updates.title := None;
     Updates.description := None; Updates.priority := None;
     Updates.category := None; Updates.dueDate := None;
     Updates.completed := None; Updates.completedAt := None;
     Updates.createdAt := None; Updates.tags := None |}.

(** What the edit screen sends. *)
Definition edit : Updates.t :=
  {| Updates.id := None; Updates.title := Some "Pay the rent";
     Updates.description := Some ""; Updates.priority := Some "high";
     Updates.category := Some "Finance"; Updates.dueDate := Some None;
     Updates.completed := None; Updates.completedAt := None;
     Updates.createdAt := None; Updates.tags := None |}.

(** Histories from the new store. *)
Definition history : list Op :=
  [Add rent "id-1" T0; Toggle "id-1" T1; Add milk "id-2" T1;
   Update "id-1" edit; Delete "id-2"].
Definition history_redate : list Op :=
  [Add rent "id-1" T0; Update "id-1" redate].
Definition history_rename : list Op :=
  [Add rent "id-1" T0; Add milk "id-2" T1; Update "id-2" rename].
Definition report : TaskData.t :=
  {| TaskData.title := "Write report";
     TaskData.description := None;
     TaskData.priority := Some "high";
     TaskData.category := Some "Work";
     TaskData.dueDate := Some "2024-02-15";
     TaskData.tags := None |}.

Definition walk : TaskData.t :=
  {| TaskData.title := "Walk";
     TaskData.description := None;
     TaskData.priority := Some "low";
     TaskData.category := Some "Health";
     TaskData.dueDate := None;
     TaskData.tags := None |}.

Definition call : TaskData.t :=
  {| TaskData.title := "Call the bank";
     TaskData.description := None;
     TaskData.priority := Some "urgent";
     TaskData.category := Some "Finance";
     TaskData.dueDate := None;
     TaskData.tags := None |}.

(** Five stored tasks and a heap that holds them as an array. *)
Definition five : list Task :=
  stored (exec (run [Add milk "id-1" T0; Add rent "id-2" T0;
                     Add report "id-3" T1; Add walk "id-4" T1;
                     Add call "id-5" T2]) fresh_disk).

Definition tasks_ref : Js.ref := 1%positive.
Definition heap : gmap Js.ref (list Task) := {[ tasks_ref := five ]}.

(** A dated task followed by an undated one. *)
Definition pair : list Task :=
  stored (exec (run [Add rent "id-1" T0; Add milk "id-2" T0]) fresh_disk).
Definition pair_heap : gmap Js.ref (list Task) := {[ tasks_ref := pair ]}.
(** Forty tasks, the first twenty-three of them completed. *)
Definition name_of (n : nat) : string :=
  String (Ascii.ascii_of_nat (65 + n)) EmptyString.
Definition crowd : list Op :=
  map (fun n => Add milk (name_of n) T0) (seq 0 40)
  ++ map (fun n => Toggle (name_of n) T1) (seq 0 23).
Definition forty : Disk := exec (run crowd) fresh_disk.

(** Tasks created on three days, the days given in the date-only form
    that the example runtime reads. *)
Definition dated : list Task :=
  stored (exec (run [Add milk "id-1" "2024-03-02"; Add rent "id-2" "2024-03-01";
                     Add walk "id-3" "2024-03-02"]) fresh_disk).
Definition dated_heap : gmap Js.ref (list Task) := {[ tasks_ref := dated ]}.

Definition ABC : list string := ["A"; "B"; "C"].
End Sample.

(** ** Vocabulary for further properties *)

(** The operation reaches [save] on disk [d]: [add], [delete] always do,
    [update] and [toggleComplete] when the identifier is stored. *)
Definition writes (op : Op) (d : Disk) : Prop :=
  match op with
  | Add _ _ _ | Delete _ => True
  | Update i _ | Toggle i _ => i ∈ map id (stored d)
  end.

(** [completedAt] is set exactly on completed tasks. *)
Definition completion_consistent (t : Task) : Prop :=
  completed t = true <-> completedAt t <> None.

(** An update that supplies neither [completed] nor [completedAt]. *)
Definition keeps_completion (op : Op) : Prop :=
  match op with
  | Update _ updates =>
      Updates.completed updates = None /\ Updates.completedAt updates = None
  | _ => True
  end.

(** A task meets every criterion that is supplied: a status other than
    [pending] and [completed] and an empty priority or category count as
    not supplied. *)
Definition meets (toLowerCase : string -> string) (c : Criteria.t) (t : Task)
  : bool :=
  (if bool_decide (Criteria.status c = Some "pending") then negb (completed t)
   else if bool_decide (Criteria.status c = Some "completed") then completed t
   else true)
  && (if Js.truthy (Criteria.priority c)
      then bool_decide (Some (priority t) = Criteria.priority c) else true)
  && (if Js.truthy (Criteria.category c)
      then bool_decide (Some (toLowerCase (category t))
                        = toLowerCase <$> Criteria.category c)
      else true).

Definition no_criteria : Criteria.t :=
  {| Criteria.status := None; Criteria.priority := None;
     Criteria.category := None |}.

Definition with_status (s : string) : Criteria.t :=
  {| Criteria.status := Some s; Criteria.priority := None;
     Criteria.category := None |}.

Definition with_priority (p : string) : Criteria.t :=
  {| Criteria.status := None; Criteria.priority := Some p;
     Criteria.category := None |}.

(** [sub] occurs in [s]. *)
Definition occurs (sub s : string) : Prop :=
  exists pre post, s = (pre ++ sub ++ post)%string.

(** The query, in lower case, occurs in the lower case of the title, of
    the description, of the category or of a tag. *)
Definition found_by (toLowerCase : string -> string) (query : string) (t : Task)
  : Prop :=
  occurs (toLowerCase query) (toLowerCase (title t))
  \/ occurs (toLowerCase query) (toLowerCase (description t))
  \/ occurs (toLowerCase query) (toLowerCase (category t))
  \/ exists tag, tag ∈ tags t /\ occurs (toLowerCase query) (toLowerCase tag).

(** Property names that every object inherits from [Object.prototype]:
    on the [categories] object of [getStats] such a name reads as the
    inherited value, not as a missing counter. *)
Definition Object_prototype_names : list string :=
  ["constructor"; "__defineGetter__"; "__defineSetter__"; "hasOwnProperty";
   "__lookupGetter__"; "__lookupSetter__"; "isPrototypeOf";
   "propertyIsEnumerable"; "toString"; "valueOf"; "__proto__";
   "toLocaleString"].

(** The categories the application offers ([CATEGORIES] of [ui.js]). *)
Definition CATEGORIES : list string :=
  ["General"; "Work"; "Personal"; "Shopping"; "Health"; "Learning";
   "Finance"; "Projects"].

Definition in_category (c : string) (t : Task) : bool :=
  bool_decide (category t = c).

(** The time value of the creation time of a task. *)
Definition created_time (Date_getTime : string -> option Z) (t : Task) : Z :=
  default 0%Z (Date_getTime (createdAt t)).

(** The keys that [sort] knows. *)
Definition sort_keys : list string := ["priority"; "due"; "date"; "title"].

(** The event carries a key object with the given name. *)
Definition is_key (n : string) (ev : Keypress.Event) : bool :=
  match Keypress.key ev with
  | Some k => bool_decide (Keypress.name k = n)
  | None => false
  end.

(** The keys that end a menu: [return] and [escape]. *)
Definition decides (ev : Keypress.Event) : bool :=
  is_key "return" ev || is_key "escape" ev.

(** The rows of a prompt with the given number of options. *)
Definition valid_row (options : list string) (i : Z) : Prop :=
  (0 <= i < Z.of_nat (length options))%Z.

(** The rows picked out of [rows] by the indexes of a prompt, in the
    order of the indexes; an index outside the rows picks nothing. *)
Definition chosen (rows : list Task) (indexes : list Z) : list Task :=
  omap (Js.at_index rows) indexes.

Definition chosen_ids (rows : list Task) (indexes : list Z) : list string :=
  map id (chosen rows indexes).

(** How a stored task [t] looks after the tasks with the identifiers
    [done] were completed at times of the clock [now]: [t'] is [t]
    completed when [t] is one of them, and [t] itself otherwise. *)
Definition completed_if_chosen (now : nat -> string) (done : list string)
    (t t' : Task) : Prop :=
  if bool_decide (id t ∈ done)
  then completed t = false /\ exists k, t' = TaskStorage.toggled (now k) t
  else t' = t.

(** What the rows selected look like while [multiSelect] listens: the
    active row and the selected rows are rows of the prompt, no row is
    selected twice. *)
Definition tidy (options : list string) (st : Prompt.Multi) : Prop :=
  valid_row options (Prompt.current st)
  /\ NoDup (Prompt.selected st)
  /\ Forall (valid_row options) (Prompt.selected st).

(** * Properties of the record store *)

Module StoreFacts.
Import TaskStorage.

Lemma stored_save tasks d : stored (exec (save tasks) d) = tasks.
Proof. reflexivity. Qed.

Lemma load_stored d : load d = (stored d, d).
Proof. reflexivity. Qed.

(** Unfold an operation down to the collection it reads from disk [d]. *)
Ltac reload d :=
  unfold exec, eval, bind; rewrite (load_stored d); cbv beta iota.

Lemma locate_None i tasks : locate i tasks = None <-> i ∉ map id tasks.
Proof.
  unfold locate. rewrite list_find_None, Forall_forall. split.
  - intros H [t [-> Ht]]%list_elem_of_fmap. by apply (H t).
  - intros H t Ht Hi. apply H, list_elem_of_fmap. eauto.
Qed.

Lemma locate_Some i tasks k t :
  locate i tasks = Some (k, t) -> tasks !! k = Some t /\ id t = i.
Proof. unfold locate. rewrite list_find_Some. tauto. Qed.

(** Writing a task with the same identifier over the first match leaves
    it the first match. *)
Lemma locate_insert i tasks k t t' :
  locate i tasks = Some (k, t) -> id t' = i ->
  locate i (<[k := t']> tasks) = Some (k, t').
Proof.
  unfold locate. rewrite !list_find_Some. intros (Hk & _ & Hmin) Hid.
  split_and!; [|done|].
  - apply list_lookup_insert_eq. by eapply lookup_lt_Some.
  - intros j y Hj Hlt. rewrite list_lookup_insert_ne in Hj by lia. eauto.
Qed.

Lemma filter_length_le {A} (p : A -> bool) l :
  (length (List.filter p l) <= length l)%nat.
Proof. induction l as [|x l IH]; simpl; [lia|]. destruct (p x); simpl; lia. Qed.

Lemma filter_length_split {A} (p : A -> bool) l :
  (length (List.filter p l) + length (List.filter (fun x => negb (p x)) l)
   = length l)%nat.
Proof. induction l as [|x l IH]; simpl; [lia|]. destruct (p x); simpl; lia. Qed.

Lemma filter_idem {A} (p : A -> bool) l :
  List.filter p (List.filter p l) = List.filter p l.
Proof.
  induction l as [|x l IH]; simpl; [done|].
  destruct (p x) eqn:E; simpl; rewrite ?E, IH; done.
Qed.

Lemma filter_all {A} (p : A -> bool) l :
  Forall (fun x => p x = true) l -> List.filter p l = l.
Proof. induction 1 as [|x l Hx _ IH]; simpl; [done|]. by rewrite Hx, IH. Qed.

(** ** clearCompleted *)

(** C8. [clearCompleted] keeps exactly the pending tasks, in their
    order: a task is stored afterwards iff it was stored and not
    completed; the number returned is the number of completed tasks,
    and a second call right after returns 0. *)
Theorem clearCompleted_removes_completed (d : Disk) :
  let d' := exec clearCompleted d in
  stored d' = List.filter (fun t => negb (completed t)) (stored d)
  /\ (forall t, t ∈ stored d' <-> t ∈ stored d /\ completed t = false)
  /\ eval clearCompleted d = length (List.filter completed (stored d))
  /\ (length (stored d') + eval clearCompleted d = length (stored d))%nat
  /\ eval clearCompleted d' = 0%nat.
Proof.
  set (tasks := stored d).
  assert (Hst : stored (exec clearCompleted d)
                = List.filter (fun t => negb (completed t)) tasks) by reflexivity.
  assert (Hn : eval clearCompleted d
               = (length tasks
                  - length (List.filter (fun t => negb (completed t)) tasks))%nat)
    by reflexivity.
  pose proof (filter_length_split completed tasks) as Hsplit.
  cbv zeta. rewrite Hst, Hn. split_and!.
  - done.
  - intros t. rewrite !list_elem_of_In, filter_In, negb_true_iff. tauto.
  - lia.
  - lia.
  - change (eval clearCompleted (exec clearCompleted d))
      with (length (stored (exec clearCompleted d))
            - length (List.filter (fun t => negb (completed t))
                        (stored (exec clearCompleted d))))%nat.
    rewrite Hst, filter_idem. lia.
Qed.

(** ** Unknown identifiers *)

(** C9. For an identifier that no stored task carries, [update] and
    [toggleComplete] return nothing and leave the disk as it is, and
    [delete] returns [false] and leaves the stored collection as it
    is. *)
Theorem unknown_id_changes_nothing
    (d : Disk) (i : string) (updates : Updates.t) (now : string) :
  i ∉ map id (stored d) ->
  (eval (update i updates) d = None
   /\ stored (exec (update i updates) d) = stored d)
  /\ (eval (delete i) d = false
      /\ stored (exec (delete i) d) = stored d)
  /\ (eval (toggleComplete i now) d = None
      /\ stored (exec (toggleComplete i now) d) = stored d).
Proof.
  intros Hi. pose proof Hi as Hloc. apply locate_None in Hloc.
  assert (Hupd : update i updates d = (None, d)).
  { unfold update. reload d.
    by rewrite Hloc. }
  assert (Htog : toggleComplete i now d = (None, d)).
  { unfold toggleComplete. reload d.
    by rewrite Hloc. }
  assert (Hfil : List.filter (fun t => negb (bool_decide (id t = i))) (stored d)
                 = stored d).
  { apply filter_all, Forall_forall. intros t Ht.
    apply negb_true_iff, bool_decide_eq_false. intros <-.
    apply Hi, list_elem_of_fmap. eauto. }
  assert (Hdel : delete i d = (false, exec (save (stored d)) d)).
  { unfold delete. reload d.
    rewrite Hfil, Nat.ltb_irrefl. by destruct (save (stored d) d) as [[] d']. }
  unfold eval, exec. rewrite Hupd, Htog, Hdel. done.
Qed.

Lemma unknown_id_changes_nothing_witness :
  ("id-9" ∉ map id (stored Sample.two))
  /\ eval (delete "id-9") Sample.two = false.
Proof.
  assert (H : "id-9" ∉ map id (stored Sample.two)).
  { apply (bool_decide_unpack _). vm_compute. exact I. }
  split; [exact H|].
  exact (proj1 (proj1 (proj2 (unknown_id_changes_nothing
                                Sample.two "id-9" Sample.edit Sample.T2 H)))).
Defined.

(** ** toggleComplete *)

Lemma getById_find i d : eval (getById i) d = find i (stored d).
Proof. reflexivity. Qed.

Lemma toggleComplete_found i now d k t :
  locate i (stored d) = Some (k, t) ->
  stored (exec (toggleComplete i now) d) = <[k := toggled now t]> (stored d).
Proof.
  intros H. unfold toggleComplete. reload d.
  by rewrite H.
Qed.

(** C3 (amended). For a stored identifier, two toggles in a row give
    the task back its [completed] flag.  Its [completedAt] is [null]
    afterwards when the task was pending and is the time of the second
    toggle when the task was completed; so the task is exactly what it
    was when it was pending with no completion time, and only then is
    the original [completedAt] sure to come back. *)
Theorem toggle_twice (d : Disk) (i now1 now2 : string) (t : Task) :
  eval (getById i) d = Some t ->
  exists t',
    eval (getById i)
         (exec (toggleComplete i now2) (exec (toggleComplete i now1) d)) = Some t'
    /\ completed t' = completed t
    /\ completedAt t' = (if completed t then Some now2 else None)
    /\ (completed t = false -> completedAt t = None -> t' = t).
Proof.
  rewrite getById_find. unfold find.
  destruct (locate i (stored d)) as [[k t0]|] eqn:Hloc; [|done].
  intros [= ->]. pose proof (locate_Some _ _ _ _ Hloc) as [Hk Hid].
  set (d1 := exec (toggleComplete i now1) d).
  assert (H1 : stored d1 = <[k := toggled now1 t]> (stored d))
    by by apply toggleComplete_found.
  assert (Hloc1 : locate i (stored d1) = Some (k, toggled now1 t)).
  { rewrite H1. by apply (locate_insert i (stored d) k t). }
  set (d2 := exec (toggleComplete i now2) d1).
  assert (H2 : stored d2 = <[k := toggled now2 (toggled now1 t)]> (stored d1))
    by by apply toggleComplete_found.
  assert (Hloc2 : locate i (stored d2)
                  = Some (k, toggled now2 (toggled now1 t))).
  { rewrite H2. by apply (locate_insert i (stored d1) k (toggled now1 t)). }
  exists (toggled now2 (toggled now1 t)).
  rewrite getById_find. unfold find. rewrite Hloc2. simpl.
  rewrite negb_involutive. split_and!; [done..|].
  intros Hc Hat. destruct t; simpl in *. by subst.
Qed.

Lemma toggle_twice_witness :
  exists t', eval (getById "id-2")
               (exec (toggleComplete "id-2" Sample.T2)
                     (exec (toggleComplete "id-2" Sample.T2) Sample.two)) = Some t'
             /\ completed t' = false.
Proof.
  destruct (toggle_twice Sample.two "id-2" Sample.T2 Sample.T2 _ eq_refl)
    as (t' & H & Hc & _).
  exists t'. split; [exact H | exact Hc].
Defined.

(** C3 as stated fails: a task completed at [T1] and toggled twice, at
    [T1] and at [T2], is completed again with [completedAt = T2]. *)
Lemma toggle_twice_moves_completedAt :
  ~ toggle_twice_restores Sample.one_done "id-1" Sample.T1 Sample.T2.
Proof.
  intros H. destruct (H _ eq_refl) as (t' & Ht' & _ & Hat).
  vm_compute in Ht'. injection Ht' as <-. discriminate Hat.
Qed.

(** ** Identity of tasks along a history *)

Lemma stored_add taskData uuid now d :
  exists task,
    stored (exec (add taskData uuid now) d) = stored d ++ [task]
    /\ id task = uuid /\ createdAt task = now.
Proof. eexists. split; [reflexivity|]. done. Qed.

Lemma stored_update i updates d :
  stored (exec (update i updates) d)
  = match locate i (stored d) with
    | Some (k, old) => <[k := merge old updates]> (stored d)
    | None => stored d
    end.
Proof.
  unfold update. reload d.
  by destruct (locate i (stored d)) as [[k old]|].
Qed.

Lemma stored_delete i d :
  stored (exec (delete i) d)
  = List.filter (fun t => negb (bool_decide (id t = i))) (stored d).
Proof. reflexivity. Qed.

Lemma stored_toggleComplete i now d :
  stored (exec (toggleComplete i now) d)
  = match locate i (stored d) with
    | Some (k, t) => <[k := toggled now t]> (stored d)
    | None => stored d
    end.
Proof.
  unfold toggleComplete. reload d.
  by destruct (locate i (stored d)) as [[k old]|].
Qed.

Lemma exec_bind {S A B} (m : State S A) (k : A -> State S B) s :
  exec (bind m k) s = exec (k (eval m s)) (exec m s).
Proof. unfold exec, eval, bind. by destruct (m s). Qed.

Lemma exec_run_cons op ops d :
  exec (run (op :: ops)) d = exec (run ops) (exec (step op) d).
Proof. simpl. by rewrite exec_bind. Qed.

Lemma exec_run_app ops1 ops2 d :
  exec (run (ops1 ++ ops2)) d = exec (run ops2) (exec (run ops1) d).
Proof.
  revert d. induction ops1 as [|op ops1 IH]; intros d; [done|].
  by rewrite <- app_comm_cons, !exec_run_cons, IH.
Qed.

Lemma stored_step op d :
  stored (exec (step op) d)
  = match op with
    | Add taskData uuid now => stored (exec (add taskData uuid now) d)
    | Update i updates => stored (exec (update i updates) d)
    | Delete i => stored (exec (delete i) d)
    | Toggle i now => stored (exec (toggleComplete i now) d)
    end.
Proof. destruct op; simpl; by rewrite exec_bind. Qed.

(** Overwriting a stored task by one with the same [id] and
    [createdAt] keeps the invariant. *)
Lemma identity_kept_insert (g : gmap string string) (tasks : list Task) k old new :
  tasks !! k = Some old -> id new = id old -> createdAt new = createdAt old ->
  NoDup (map id tasks) ->
  (forall t, t ∈ tasks -> g !! id t = Some (createdAt t)) ->
  NoDup (map id (<[k := new]> tasks))
  /\ forall t, t ∈ <[k := new]> tasks -> g !! id t = Some (createdAt t).
Proof.
  intros Hk Hid Hat Hnd Hg. split.
  - change (map id (<[k:=new]> tasks)) with (id <$> <[k:=new]> tasks).
    rewrite list_fmap_insert, list_insert_id; [done|].
    by rewrite list_lookup_fmap, Hk, Hid.
  - intros t [j Hj]%list_elem_of_lookup.
    destruct (decide (j = k)) as [->|Hne].
    + rewrite list_lookup_insert_eq in Hj by by eapply lookup_lt_Some.
      injection Hj as <-. rewrite Hid, Hat.
      apply Hg. by eapply list_elem_of_lookup_2.
    + rewrite list_lookup_insert_ne in Hj by done.
      apply Hg. by eapply list_elem_of_lookup_2.
Qed.

Lemma NoDup_map_filter {A B} (f : A -> B) (p : A -> bool) l :
  NoDup (map f l) -> NoDup (map f (List.filter p l)).
Proof.
  induction l as [|x l IH]; simpl; [done|].
  rewrite NoDup_cons. intros [Hx Hl]. destruct (p x); simpl; [|auto].
  apply NoDup_cons. split; [|auto].
  intros [y [Hy Hin]]%list_elem_of_fmap. apply Hx, list_elem_of_fmap.
  exists y. split; [done|].
  apply list_elem_of_In. apply list_elem_of_In, filter_In in Hin. tauto.
Qed.

Lemma identity_kept_step (g : gmap string string) op d :
  identity_kept g d -> well_issued g [op] -> keeps_identity op ->
  identity_kept (births g [op]) (exec (step op) d).
Proof.
  intros [Hnd Hg] Hfresh Hkeep. unfold identity_kept.
  rewrite stored_step. destruct op as [td uuid now|i u|i|i now]; simpl.
  - destruct (stored_add td uuid now d) as (task & -> & Hid & Hat).
    destruct Hfresh as [Hnew _]. split.
    + rewrite map_app. simpl. apply NoDup_app. split_and!; [done| |apply NoDup_singleton].
      intros x [t [-> Ht]]%list_elem_of_fmap Hx%list_elem_of_singleton.
      rewrite Hid in Hx. apply Hg in Ht. congruence.
    + intros t [Ht | ->%list_elem_of_singleton]%elem_of_app.
      * rewrite lookup_insert_ne; [by apply Hg|].
        intros Heq. apply Hg in Ht. congruence.
      * by rewrite Hid, Hat, lookup_insert_eq.
  - rewrite stored_update.
    destruct (locate i (stored d)) as [[k old]|] eqn:Hloc; [|done].
    apply locate_Some in Hloc as [Hk _]. destruct Hkeep as [Hi Hc].
    apply (identity_kept_insert g (stored d) k old); try done.
    + simpl. by rewrite Hi.
    + simpl. by rewrite Hc.
  - rewrite stored_delete. split.
    + by apply NoDup_map_filter.
    + intros t Ht. apply Hg.
      apply list_elem_of_In. apply list_elem_of_In, filter_In in Ht. tauto.
  - rewrite stored_toggleComplete.
    destruct (locate i (stored d)) as [[k old]|] eqn:Hloc; [|done].
    apply locate_Some in Hloc as [Hk _].
    by apply (identity_kept_insert g (stored d) k old).
Qed.

Lemma births_cons (g : gmap string string) op ops :
  births g (op :: ops) = births (births g [op]) ops.
Proof. by destruct op. Qed.

Lemma well_issued_cons (g : gmap string string) op ops :
  well_issued g (op :: ops) <-> well_issued g [op] /\ well_issued (births g [op]) ops.
Proof. destruct op; simpl; tauto. Qed.

Lemma identity_kept_run ops : forall g d,
  identity_kept g d -> well_issued g ops -> Forall keeps_identity ops ->
  identity_kept (births g ops) (exec (run ops) d).
Proof.
  induction ops as [|op ops IH]; intros g d Hinv Hfresh Hkeep; [done|].
  apply well_issued_cons in Hfresh as [Hop Hops].
  apply Forall_cons in Hkeep as [Hk Hks].
  rewrite births_cons, exec_run_cons.
  apply IH; [|done..]. by apply identity_kept_step.
Qed.

Lemma register_lookup tasks t :
  NoDup (map id tasks) -> t ∈ tasks -> register tasks !! id t = Some (createdAt t).
Proof.
  intros Hnd Ht. unfold register.
  apply (elem_of_list_to_map_1 (M := gmap string)).
  - change (map (fun t0 => (id t0, createdAt t0)) tasks)
      with ((fun t0 => (id t0, createdAt t0)) <$> tasks).
    by rewrite <- list_fmap_compose.
  - apply list_elem_of_fmap. eauto.
Qed.

(** A register only grows along a well-issued history. *)
Lemma births_mono ops : forall g, well_issued g ops -> g ⊆ births g ops.
Proof.
  induction ops as [|op ops IH]; intros g Hw; [done|].
  destruct op as [td uuid now| | |]; simpl in *; auto.
  destruct Hw as [Hnew Hw]. etrans; [|by apply IH].
  by apply insert_subseteq.
Qed.

Lemma well_issued_app (g : gmap string string) ops1 ops2 :
  well_issued g (ops1 ++ ops2) ->
  well_issued g ops1 /\ well_issued (births g ops1) ops2.
Proof.
  revert g. induction ops1 as [|op ops1 IH]; intros g; [done|].
  destruct op as [td uuid now| | |]; simpl; auto.
  intros [Hnew Hw]. destruct (IH _ Hw). tauto.
Qed.

Lemma births_app (g : gmap string string) ops1 ops2 :
  births g (ops1 ++ ops2) = births (births g ops1) ops2.
Proof.
  revert g. induction ops1 as [|op ops1 IH]; intros g; [done|].
  destruct op; simpl; auto.
Qed.

(** C4 (amended). Start from a store whose identifiers are unique and
    run any sequence of add, update, delete and toggleComplete in which
    every add receives an identifier never issued before and no update
    supplies [id] or [createdAt].  Then identifiers stay unique, every
    stored task carries the creation time registered for its identifier,
    and a task found at some point of the history and found again later
    under the same identifier has the same [createdAt]. *)
Theorem identity_is_kept (d : Disk) (ops : list Op) :
  NoDup (map id (stored d)) ->
  well_issued (register (stored d)) ops ->
  Forall keeps_identity ops ->
  identity_kept (births (register (stored d)) ops) (exec (run ops) d)
  /\ forall ops1 ops2 t t',
       ops = ops1 ++ ops2 ->
       t ∈ stored (exec (run ops1) d) ->
       t' ∈ stored (exec (run ops) d) ->
       id t' = id t -> createdAt t' = createdAt t.
Proof.
  intros Hnd Hw Hkeep.
  assert (Hinit : identity_kept (register (stored d)) d).
  { split; [done|]. intros t Ht. by apply register_lookup. }
  split; [by apply identity_kept_run|].
  intros ops1 ops2 t t' -> Ht Ht' Hid.
  apply well_issued_app in Hw as [Hw1 Hw2].
  apply Forall_app in Hkeep as [Hk1 Hk2].
  pose proof (identity_kept_run ops1 _ _ Hinit Hw1 Hk1) as Hmid.
  pose proof (identity_kept_run ops2 _ _ Hmid Hw2 Hk2) as [_ Hend].
  rewrite <- exec_run_app in Hend. apply Hend in Ht'.
  destruct Hmid as [_ Hmid]. apply Hmid in Ht.
  pose proof (births_mono ops2 _ Hw2) as Hsub.
  eapply lookup_weaken in Ht; [|exact Hsub].
  rewrite Hid in Ht'. congruence.
Qed.

Lemma identity_is_kept_witness :
  NoDup (map id (stored (exec (run Sample.history) Sample.fresh_disk))).
Proof.
  refine (proj1 (proj1 (identity_is_kept Sample.fresh_disk Sample.history _ _ _))).
  - vm_compute. constructor.
  - vm_compute. tauto.
  - repeat constructor.
Defined.

(** C4 as stated fails, for histories in which every identifier is
    issued once: an update that supplies [createdAt] changes the
    creation time of the task, and an update that supplies [id] makes
    two stored tasks share an identifier. *)
Lemma update_rewrites_identity :
  (well_issued (register (stored Sample.fresh_disk)) Sample.history_redate
   /\ ~ identity_kept
        (births (register (stored Sample.fresh_disk)) Sample.history_redate)
        (exec (run Sample.history_redate) Sample.fresh_disk))
  /\ (well_issued (register (stored Sample.fresh_disk)) Sample.history_rename
      /\ ~ NoDup (map id (stored (exec (run Sample.history_rename)
                                    Sample.fresh_disk)))).
Proof.
  split; split.
  - vm_compute. tauto.
  - intros [_ H]. specialize (H _ (list_elem_of_here _ _)).
    vm_compute in H. discriminate H.
  - vm_compute. tauto.
  - intros H. vm_compute in H.
    apply NoDup_cons in H as [H _]. apply H. left.
Qed.

End StoreFacts.

(** * Properties of [sort] *)

Module SortFacts.
Import Js TaskStorage.

(** ** The sorting algorithm *)

Section Insertion.
Context {A : Type} (comparefn : A -> A -> option Z).

Lemma insert_Permutation x l : insert comparefn x l ≡ₚ x :: l.
Proof.
  induction l as [|y l IH]; simpl; [done|].
  destruct (after comparefn x y); [|done].
  rewrite IH. apply Permutation_swap.
Qed.

Lemma Array_sort_Permutation l : Array_sort comparefn l ≡ₚ l.
Proof.
  induction l as [|x l IH]; simpl; [done|].
  fold (Array_sort comparefn l). by rewrite insert_Permutation, IH.
Qed.

Lemma Array_sort_cons x l :
  Array_sort comparefn (x :: l) = insert comparefn x (Array_sort comparefn l).
Proof. reflexivity. Qed.

(** *** Sorting by a key

    On elements that satisfy [P] the comparator orders by an integer
    key: [x] goes after [y] exactly when its key is larger. *)
Section Keyed.
Context (key : A -> Z) (P : A -> Prop).
Hypothesis after_key :
  forall x y, P x -> P y -> after comparefn x y = (key y <? key x)%Z.

Lemma insert_sorted x l :
  P x -> Forall P l ->
  StronglySorted (key_le key) l -> StronglySorted (key_le key) (insert comparefn x l).
Proof.
  intros Hx HP Hs. induction Hs as [|y l Hs IH Hy]; simpl.
  - repeat constructor.
  - apply Forall_cons in HP as [Py Pl]. rewrite after_key by done.
    destruct (Z.ltb_spec (key y) (key x)) as [Hlt|Hge].
    + constructor; [by apply IH|].
      rewrite insert_Permutation. constructor; [|done].
      unfold key_le. lia.
    + constructor; [by constructor|].
      constructor; [done|].
      eapply Forall_impl; [exact Hy|]. unfold key_le. simpl. lia.
Qed.

Lemma Array_sort_sorted l :
  Forall P l -> StronglySorted (key_le key) (Array_sort comparefn l).
Proof.
  induction 1 as [|x l Hx Hl IH]; [constructor|].
  rewrite Array_sort_cons. apply insert_sorted; [done| |done].
  by rewrite Array_sort_Permutation.
Qed.

Lemma insert_stable v x l :
  P x -> Forall P l ->
  List.filter (has_key key v) (insert comparefn x l)
  = List.filter (has_key key v) (x :: l).
Proof.
  intros Hx. induction 1 as [|y l Hy Hl IH]; [done|].
  simpl insert. rewrite after_key by done.
  destruct (Z.ltb_spec (key y) (key x)) as [Hlt|Hge]; [|done].
  simpl in *. rewrite IH. unfold has_key.
  destruct (Z.eqb_spec (key x) v), (Z.eqb_spec (key y) v); try done. lia.
Qed.

(** Elements with the same key come out in the order they went in. *)
Lemma Array_sort_stable v l :
  Forall P l ->
  List.filter (has_key key v) (Array_sort comparefn l) = List.filter (has_key key v) l.
Proof.
  induction 1 as [|x l Hx Hl IH]; [done|].
  rewrite Array_sort_cons, insert_stable; [|done|].
  - simpl. by rewrite IH.
  - by rewrite Array_sort_Permutation.
Qed.

(** The result is the only list with these three properties, so any
    other stable sorting algorithm returns it too. *)
Lemma stable_sorted_unique l1 l2 :
  StronglySorted (key_le key) l1 -> StronglySorted (key_le key) l2 ->
  (forall v, List.filter (has_key key v) l1 = List.filter (has_key key v) l2) ->
  l1 = l2.
Proof.
  intros H1. revert l2.
  induction H1 as [|x l1 Hs1 IH Hx]; intros l2 H2 Hf.
  - destruct l2 as [|y l2]; [done|].
    specialize (Hf (key y)). simpl in Hf. unfold has_key in Hf.
    by rewrite Z.eqb_refl in Hf.
  - destruct H2 as [|y l2 Hs2 Hy].
    + specialize (Hf (key x)). simpl in Hf. unfold has_key in Hf.
      by rewrite Z.eqb_refl in Hf.
    + assert (Hkey : key x = key y).
      { apply Z.le_antisymm.
        - pose proof (Hf (key y)) as Hf'. simpl in Hf'.
          unfold has_key in Hf'. rewrite Z.eqb_refl in Hf'.
          destruct (Z.eqb_spec (key x) (key y)) as [->|_]; [lia|].
          assert (Hin : In y (List.filter (fun x => key x =? key y)%Z l1))
            by (rewrite Hf'; left; done).
          apply filter_In in Hin as [Hin _].
          rewrite Forall_forall in Hx.
          apply Hx. by apply list_elem_of_In.
        - pose proof (Hf (key x)) as Hf'. simpl in Hf'.
          unfold has_key in Hf'. rewrite Z.eqb_refl in Hf'.
          destruct (Z.eqb_spec (key y) (key x)) as [->|_]; [lia|].
          assert (Hin : In x (List.filter (fun y => key y =? key x)%Z l2))
            by (rewrite <- Hf'; left; done).
          apply filter_In in Hin as [Hin _].
          rewrite Forall_forall in Hy.
          apply Hy. by apply list_elem_of_In. }
      assert (Hxy : x = y).
      { specialize (Hf (key x)). simpl in Hf. unfold has_key in Hf.
        rewrite Hkey, Z.eqb_refl in Hf. congruence. }
      subst y. f_equal. apply IH; [done|].
      intros v. specialize (Hf v). simpl in Hf.
      destruct (has_key key v x); congruence.
Qed.
(** So the model does not depend on the sorting algorithm chosen: what
    is sorted by the key and stable with respect to [l] is
    [Array_sort l]. *)
Lemma Array_sort_unique l l' :
  Forall P l ->
  StronglySorted (key_le key) l' ->
  (forall v, List.filter (has_key key v) l' = List.filter (has_key key v) l) ->
  l' = Array_sort comparefn l.
Proof.
  intros HP Hs Hf. apply stable_sorted_unique; [done|by apply Array_sort_sorted|].
  intros v. by rewrite Array_sort_stable.
Qed.
End Keyed.

(** *** Sorting with a class of late elements

    Late elements go after all others and keep their order. *)
Section Late.
Context (late : A -> bool).
Hypothesis late_late :
  forall x y, late x = true -> late y = true -> after comparefn x y = false.
Hypothesis late_early :
  forall x y, late x = true -> late y = false -> after comparefn x y = true.
Hypothesis early_late :
  forall x y, late x = false -> late y = true -> after comparefn x y = false.

Lemma insert_late x l1 l2 :
  late x = true ->
  Forall (fun y => late y = false) l1 -> Forall (fun y => late y = true) l2 ->
  insert comparefn x (l1 ++ l2) = l1 ++ x :: l2.
Proof.
  intros Hx H1 H2. induction H1 as [|y l1 Hy _ IH]; simpl.
  - destruct H2 as [|y l2 Hy _]; simpl; [done|].
    by rewrite late_late.
  - by rewrite late_early, IH.
Qed.

Lemma insert_early x l1 l2 :
  late x = false -> Forall (fun y => late y = true) l2 ->
  insert comparefn x (l1 ++ l2) = insert comparefn x l1 ++ l2.
Proof.
  intros Hx H2. induction l1 as [|y l1 IH]; simpl.
  - destruct H2 as [|y l2 Hy _]; simpl; [done|].
    by rewrite early_late.
  - destruct (after comparefn x y); [|done]. by rewrite IH.
Qed.

Lemma Array_sort_late l :
  Array_sort comparefn l
  = Array_sort comparefn (List.filter (fun y => negb (late y)) l) ++ List.filter late l.
Proof.
  induction l as [|x l IH]; [done|].
  rewrite Array_sort_cons, IH. simpl.
  assert (H1 : Forall (fun y => late y = false)
                 (Array_sort comparefn (List.filter (fun y => negb (late y)) l))).
  { rewrite Array_sort_Permutation. apply Forall_forall.
    intros y [_ Hy]%list_elem_of_In%filter_In.
    by apply negb_true_iff. }
  assert (H2 : Forall (fun y => late y = true) (List.filter late l)).
  { apply Forall_forall. by intros y [_ Hy]%list_elem_of_In%filter_In. }
  destruct (late x) eqn:Hx; simpl.
  - by apply insert_late.
  - by rewrite insert_early.
Qed.
End Late.
End Insertion.

Lemma StronglySorted_lookup_lt {A} (R : relation A) l i j a b :
  StronglySorted R l -> (i < j)%nat -> l !! i = Some a -> l !! j = Some b -> R a b.
Proof.
  intros Hs. revert i j. induction Hs as [|x l Hs IH Hx]; intros i j Hij Hi Hj.
  - done.
  - destruct j as [|j]; [lia|]. destruct i as [|i]; simpl in *.
    + injection Hi as <-. rewrite Forall_forall in Hx.
      apply Hx. by eapply list_elem_of_lookup_2.
    + apply (IH i j); [lia|done..].
Qed.

(** ** [sort] and the heap *)

Section Sorting.
Context (Date_getTime : string -> option Z).
Context (localeCompare : string -> string -> Z).

Abbreviation sort := (sort Date_getTime localeCompare).
Abbreviation comparison := (comparison Date_getTime localeCompare).
Abbreviation sorted_elements := (sorted_elements Date_getTime localeCompare).

(** [sort] allocates one array, fills it with the sorted elements and
    returns it; nothing else changes. *)
Lemma sort_allocates (h : gmap ref (list Task)) tasks l sortBy reverse :
  h !! tasks = Some l ->
  sort tasks sortBy reverse h
  = (fresh (dom h), <[fresh (dom h) := sorted_elements l sortBy reverse]> h).
Proof.
  intros Hl. unfold TaskStorage.sort, bind, array_from, array_sort, array_reverse, ret.
  rewrite Hl. simpl. rewrite alter_insert_eq. unfold TaskStorage.sorted_elements.
  destruct reverse; [|done]. by rewrite alter_insert_eq.
Qed.

Lemma fresh_unused (h : gmap ref (list Task)) : h !! fresh (dom h) = None.
Proof. apply not_elem_of_dom, is_fresh. Qed.

Lemma sort_yields (h : gmap ref (list Task)) tasks l sortBy reverse :
  h !! tasks = Some l ->
  yields (sort tasks sortBy reverse) h (sorted_elements l sortBy reverse).
Proof.
  intros Hl. unfold yields. rewrite (sort_allocates h tasks l) by done.
  simpl. apply lookup_insert_eq.
Qed.

Lemma sort_copies (h : gmap ref (list Task)) tasks l sortBy reverse :
  h !! tasks = Some l ->
  let sorted := fst (sort tasks sortBy reverse h) in
  let h' := snd (sort tasks sortBy reverse h) in
  sorted <> tasks
  /\ h' !! tasks = Some l
  /\ forall r, r <> sorted -> h' !! r = h !! r.
Proof.
  intros Hl. rewrite (sort_allocates h tasks l) by done. simpl.
  assert (Hne : fresh (dom h) <> tasks).
  { intros Heq. pose proof (fresh_unused h) as Hf. rewrite Heq in Hf. congruence. }
  split_and!; [done| |].
  - by rewrite lookup_insert_ne.
  - intros r Hr. by rewrite lookup_insert_ne.
Qed.

(** ** Sorting by priority *)

Lemma priorityOrder_PRIORITIES p :
  p ∈ PRIORITIES ->
  exists i, PRIORITIES !! i = Some p /\ priorityOrder !! p = Some (Z.of_nat i).
Proof.
  unfold PRIORITIES. intros H.
  repeat (apply elem_of_cons in H as [->|H]);
    [by exists 0%nat|by exists 1%nat|by exists 2%nat|by exists 3%nat|].
  by apply elem_of_nil in H.
Qed.

Lemma PRIORITIES_index i j p :
  PRIORITIES !! i = Some p -> PRIORITIES !! j = Some p -> i = j.
Proof.
  intros Hi Hj. apply (NoDup_lookup PRIORITIES i j p); [|done..].
  apply (bool_decide_unpack _). vm_compute. exact I.
Qed.

Lemma after_priority a b :
  priority a ∈ PRIORITIES -> priority b ∈ PRIORITIES ->
  after (comparison "priority") a b = (rank b <? rank a)%Z.
Proof.
  intros (i & _ & Ha)%priorityOrder_PRIORITIES (j & _ & Hb)%priorityOrder_PRIORITIES.
  unfold after, SortCompare, TaskStorage.comparison, rank. simpl.
  rewrite Ha, Hb. simpl. destruct (Z.ltb_spec 0 (Z.of_nat i - Z.of_nat j)),
    (Z.ltb_spec (Z.of_nat j) (Z.of_nat i)); lia.
Qed.

Lemma filter_ext_Forall {A} (p q : A -> bool) (P : A -> Prop) l :
  Forall P l -> (forall x, P x -> p x = q x) -> List.filter p l = List.filter q l.
Proof.
  intros Hl Hpq. induction Hl as [|x l Hx _ IH]; simpl; [done|].
  by rewrite (Hpq x Hx), IH.
Qed.

(** C6. For tasks whose priorities are levels of the closed set,
    [sort(tasks, 'priority')] returns an array holding the same tasks
    in which no task stands after a task of a strictly less urgent
    level (urgent, then high, then medium, then low); tasks of one
    level keep the order they had in the input; the array returned is
    a new one and the input array is as it was, as is every other
    array. *)
Theorem sort_priority_stable_copy
    (h : gmap ref (list Task)) (tasks : ref) (l : list Task) :
  h !! tasks = Some l ->
  Forall (fun t => priority t ∈ PRIORITIES) l ->
  exists result,
    yields (sort tasks "priority" false) h result
    /\ result ≡ₚ l
    /\ (forall i j a b,
          (i < j)%nat -> result !! i = Some a -> result !! j = Some b ->
          ~ more_urgent (priority b) (priority a))
    /\ (forall p,
          List.filter (fun t => bool_decide (priority t = p)) result
          = List.filter (fun t => bool_decide (priority t = p)) l)
    /\ fst (sort tasks "priority" false h) <> tasks
    /\ snd (sort tasks "priority" false h) !! tasks = Some l
    /\ (forall r, r <> fst (sort tasks "priority" false h) ->
                  snd (sort tasks "priority" false h) !! r = h !! r).
Proof.
  intros Hl Hvalid.
  set (result := Array_sort (comparison "priority") l).
  assert (Hperm : result ≡ₚ l) by apply Array_sort_Permutation.
  assert (Hvalid' : Forall (fun t => priority t ∈ PRIORITIES) result)
    by by rewrite Hperm.
  pose proof (Array_sort_sorted (comparison "priority") rank
                (fun t => priority t ∈ PRIORITIES) after_priority l Hvalid)
    as Hsorted. fold result in Hsorted.
  exists result. split_and!.
  - by apply (sort_yields h tasks l "priority" false).
  - done.
  - intros i j a b Hij Hi Hj (m & n & Hm & Hn & Hmn).
    assert (key_le rank a b) as Hle.
    { by apply (StronglySorted_lookup_lt (key_le rank) result i j a b). }
    assert (Ha : priority a ∈ PRIORITIES) by by eapply list_elem_of_lookup_2.
    assert (Hb : priority b ∈ PRIORITIES) by by eapply list_elem_of_lookup_2.
    apply priorityOrder_PRIORITIES in Ha as (n' & Hn' & Hra).
    apply priorityOrder_PRIORITIES in Hb as (m' & Hm' & Hrb).
    assert (n' = n) as -> by by eapply PRIORITIES_index.
    assert (m' = m) as -> by by eapply PRIORITIES_index.
    unfold key_le, rank in Hle. rewrite Hra, Hrb in Hle. simpl in Hle. lia.
  - intros p. destruct (decide (p ∈ PRIORITIES)) as [Hp|Hp].
    + apply priorityOrder_PRIORITIES in Hp as (n & Hn & Hrp).
      assert (Hext : forall t, priority t ∈ PRIORITIES ->
                 bool_decide (priority t = p) = has_key rank (Z.of_nat n) t).
      { intros t (m & Hm & Hrt)%priorityOrder_PRIORITIES.
        unfold has_key, rank. rewrite Hrt. simpl.
        destruct (Z.eqb_spec (Z.of_nat m) (Z.of_nat n)) as [Heq|Hne].
        - apply Nat2Z.inj in Heq as ->. apply bool_decide_eq_true. congruence.
        - apply bool_decide_eq_false. intros Hp. apply Hne. f_equal.
          rewrite Hp in Hm. by eapply PRIORITIES_index. }
      rewrite (filter_ext_Forall _ _ _ result Hvalid' Hext).
      rewrite (filter_ext_Forall _ _ _ l Hvalid Hext).
      by apply (Array_sort_stable (comparison "priority") rank
                  (fun t => priority t ∈ PRIORITIES) after_priority).
    + assert (Hext : forall t, priority t ∈ PRIORITIES ->
                 bool_decide (priority t = p) = false).
      { intros t Ht. apply bool_decide_eq_false. congruence. }
      assert (Hnone : forall l0, Forall (fun t => priority t ∈ PRIORITIES) l0 ->
                 List.filter (fun t => bool_decide (priority t = p)) l0 = []).
      { induction 1 as [|x l0 Hx _ IH]; simpl; [done|]. by rewrite Hext. }
      by rewrite !Hnone.
  - by apply (sort_copies h tasks l).
  - by apply (sort_copies h tasks l).
  - by apply (sort_copies h tasks l).
Qed.

(** ** Sorting by due date *)

Lemma comparison_due_undated a b :
  dated a = false -> dated b = false -> comparison "due" a b = Some 0%Z.
Proof.
  unfold dated, TaskStorage.comparison. simpl. by intros -> ->.
Qed.

Lemma after_due_undated_undated a b :
  undated a = true -> undated b = true -> after (comparison "due") a b = false.
Proof.
  unfold undated. intros Ha%negb_true_iff Hb%negb_true_iff.
  unfold after, SortCompare. by rewrite comparison_due_undated.
Qed.

Lemma after_due_undated_dated a b :
  undated a = true -> undated b = false -> after (comparison "due") a b = true.
Proof.
  unfold undated, dated. intros Ha%negb_true_iff Hb%negb_false_iff.
  unfold after, SortCompare, TaskStorage.comparison. simpl. by rewrite Ha, Hb.
Qed.

Lemma after_due_dated_undated a b :
  undated a = false -> undated b = true -> after (comparison "due") a b = false.
Proof.
  unfold undated, dated. intros Ha%negb_false_iff Hb%negb_true_iff.
  unfold after, SortCompare, TaskStorage.comparison. simpl. by rewrite Ha, Hb.
Qed.

Lemma after_due_dated a b :
  dated a = true /\ due_valid Date_getTime a ->
  dated b = true /\ due_valid Date_getTime b ->
  after (comparison "due") a b
  = (due_time Date_getTime b <? due_time Date_getTime a)%Z.
Proof.
  intros [Ha Va] [Hb Vb].
  destruct (Va Ha) as [ta Hta]. destruct (Vb Hb) as [tb Htb].
  unfold after, SortCompare, TaskStorage.comparison, due_time. simpl.
  unfold dated in Ha, Hb. rewrite Ha, Hb, Hta, Htb. simpl.
  destruct (Z.ltb_spec 0 (ta - tb)), (Z.ltb_spec tb ta); lia.
Qed.

Lemma classes_in_order {A} (p : A -> bool) l1 l2 i j a b :
  Forall (fun x => p x = true) l1 -> Forall (fun x => p x = false) l2 ->
  (l1 ++ l2) !! i = Some a -> (l1 ++ l2) !! j = Some b ->
  p a = true -> p b = false -> (i < j)%nat.
Proof.
  rewrite !Forall_forall. intros H1 H2 Hi Hj Ha Hb.
  apply lookup_app_Some in Hi as [Hi|[_ Hi]].
  - apply lookup_app_Some in Hj as [Hj|[Hj _]].
    + apply list_elem_of_lookup_2, H1 in Hj. congruence.
    + apply lookup_lt_Some in Hi. lia.
  - apply list_elem_of_lookup_2, H2 in Hi. congruence.
Qed.

Lemma StronglySorted_rev {A} (R : relation A) l :
  StronglySorted R l -> StronglySorted (flip R) (rev l).
Proof.
  induction 1 as [|x l Hs IH Hx]; simpl; [constructor|].
  apply StronglySorted_app_2; [|done|repeat constructor].
  intros y z Hy%list_elem_of_In%in_rev%list_elem_of_In ->%list_elem_of_singleton.
  rewrite Forall_forall in Hx. by apply Hx.
Qed.

(** C2 (amended). [sort(tasks, 'due')] returns the dated tasks
    followed by the undated ones, the undated ones in their input
    order; [sort(tasks, 'due', true)] returns that array reversed, so
    there every undated task stands before every dated one.  When
    the due dates are valid dates, the dated tasks are in ascending
    order of date (descending under [reverse]), tasks of one date in
    input order.  Two undated tasks compare equal. *)
Theorem sort_due_places_undated
    (h : gmap ref (list Task)) (tasks : ref) (l : list Task) :
  h !! tasks = Some l ->
  exists D,
    let U := List.filter undated l in
    yields (sort tasks "due" false) h (D ++ U)
    /\ yields (sort tasks "due" true) h (rev U ++ rev D)
    /\ D ≡ₚ List.filter dated l
    /\ undated_last (D ++ U)
    /\ undated_first (rev U ++ rev D)
    /\ (Forall (due_valid Date_getTime) l ->
        StronglySorted (key_le (due_time Date_getTime)) D
        /\ StronglySorted (flip (key_le (due_time Date_getTime))) (rev D)
        /\ forall v,
             List.filter (has_key (due_time Date_getTime) v) D
             = List.filter (has_key (due_time Date_getTime) v)
                 (List.filter dated l))
    /\ (forall a b, dated a = false -> dated b = false ->
                    comparison "due" a b = Some 0%Z).
Proof.
  intros Hl.
  set (D := Array_sort (comparison "due") (List.filter dated l)).
  set (U := List.filter undated l).
  assert (Hsplit : Array_sort (comparison "due") l = D ++ U).
  { rewrite (Array_sort_late (comparison "due") undated
               after_due_undated_undated after_due_undated_dated
               after_due_dated_undated l).
    unfold D, U. f_equal. f_equal. apply filter_ext.
    intros t. unfold undated. apply negb_involutive. }
  assert (HD : Forall (fun t => dated t = true) D).
  { unfold D. rewrite Array_sort_Permutation. apply Forall_forall.
    by intros t [_ Ht]%list_elem_of_In%filter_In. }
  assert (HU : Forall (fun t => dated t = false) U).
  { apply Forall_forall. intros t [_ Ht]%list_elem_of_In%filter_In.
    by apply negb_true_iff. }
  exists D. fold U. cbv zeta. split_and!.
  - rewrite <- Hsplit. by apply (sort_yields h tasks l "due" false).
  - rewrite <- rev_app_distr, <- Hsplit.
    by apply (sort_yields h tasks l "due" true).
  - apply Array_sort_Permutation.
  - intros i j a b Hi Hj Ha Hb. by apply (classes_in_order dated D U i j a b).
  - intros i j a b Hi Hj Ha Hb.
    apply (classes_in_order undated (rev U) (rev D) i j a b); try done.
    + apply Forall_forall. intros t Ht%list_elem_of_In%in_rev%list_elem_of_In.
      rewrite Forall_forall in HU. unfold undated. by rewrite (HU t Ht).
    + apply Forall_forall. intros t Ht%list_elem_of_In%in_rev%list_elem_of_In.
      rewrite Forall_forall in HD. unfold undated. by rewrite (HD t Ht).
    + unfold undated. by rewrite Ha.
    + unfold undated. by rewrite Hb.
  - intros Hvalid.
    assert (HP : Forall (fun t => dated t = true /\ due_valid Date_getTime t)
                   (List.filter dated l)).
    { apply Forall_forall. intros t [Ht Hd]%list_elem_of_In%filter_In.
      split; [done|]. rewrite Forall_forall in Hvalid.
      by apply Hvalid, list_elem_of_In. }
    pose proof (Array_sort_sorted (comparison "due") (due_time Date_getTime)
                  _ after_due_dated _ HP) as Hs.
    split_and!; [done|by apply StronglySorted_rev|].
    intros v. by apply (Array_sort_stable (comparison "due")
                          (due_time Date_getTime) _ after_due_dated).
  - apply comparison_due_undated.
Qed.

End Sorting.

Lemma sort_priority_stable_copy_witness :
  exists result,
    yields (sort Runtime.Date_getTime Runtime.localeCompare
              Sample.tasks_ref "priority" false) Sample.heap result
    /\ result ≡ₚ Sample.five.
Proof.
  destruct (sort_priority_stable_copy Runtime.Date_getTime Runtime.localeCompare
              Sample.heap Sample.tasks_ref Sample.five)
    as (result & Hy & Hp & _).
  - vm_compute. reflexivity.
  - apply (bool_decide_unpack _). vm_compute. exact I.
  - exists result. split; [exact Hy | exact Hp].
Defined.

Lemma sort_due_places_undated_witness :
  exists D,
    yields (sort Runtime.Date_getTime Runtime.localeCompare
              Sample.tasks_ref "due" false) Sample.heap
           (D ++ List.filter undated Sample.five)
    /\ StronglySorted (key_le (due_time Runtime.Date_getTime)) D.
Proof.
  destruct (sort_due_places_undated Runtime.Date_getTime Runtime.localeCompare
              Sample.heap Sample.tasks_ref Sample.five)
    as (D & Hy & _ & _ & _ & _ & Hs & _).
  - vm_compute. reflexivity.
  - exists D. split; [exact Hy|]. apply Hs.
    let l := eval vm_compute in Sample.five in change Sample.five with l.
    repeat (apply List.Forall_cons;
            [intros Hd; vm_compute in Hd |- *; first [discriminate Hd | eauto]|]).
    apply List.Forall_nil.
Defined.

(** C2 as stated fails under [reverse]: a dated task followed by an
    undated one comes back with the undated task in front. *)
Lemma sort_due_reverse_undated_first :
  exists result,
    yields (sort Runtime.Date_getTime Runtime.localeCompare
              Sample.tasks_ref "due" true) Sample.pair_heap result
    /\ ~ undated_last result.
Proof.
  exists (rev Sample.pair). split; [vm_compute; reflexivity|].
  intros H.
  pose proof (H 1%nat 0%nat _ _ eq_refl eq_refl eq_refl eq_refl) as Hlt. lia.
Qed.

End SortFacts.


(** * Properties of [getStats] *)

Module StatsFacts.
Import TaskStorage StoreFacts.

(** The counters of [getStats] are right for every collection: the
    total is the number of stored tasks, [completed] the number of
    those whose flag is set, [pending] the rest, and the rate is 0 for
    the empty collection. *)
Lemma getStats_counts (d : Disk) :
  let s := eval getStats d in
  Stats.total s = length (stored d)
  /\ Stats.completed s = length (List.filter completed (stored d))
  /\ (Stats.completed s + Stats.pending s = Stats.total s)%nat
  /\ (Stats.total s = 0%nat -> Stats.completionRate s = 0%Z).
Proof.
  cbv zeta.
  change (Stats.total (eval getStats d)) with (length (stored d)).
  change (Stats.completed (eval getStats d))
    with (length (List.filter completed (stored d))).
  change (Stats.pending (eval getStats d))
    with (length (stored d) - length (List.filter completed (stored d)))%nat.
  pose proof (filter_length_le completed (stored d)).
  split_and!; [done|done|lia|].
  intros H0.
  change (Stats.completionRate (eval getStats d))
    with (if (0 <? length (stored d))%nat
          then Js.Math_round
                 (Js.mul (Js.div (Js.of_nat (length (List.filter completed (stored d))))
                                 (Js.of_nat (length (stored d))))
                         (Js.of_nat 100))
          else 0%Z).
  by rewrite H0.
Qed.

(** The double computed for 23 tasks out of 40 lies below 57.5, which is
    8092405580431360 / 2^47. *)
Example product_23_of_40 :
  Js.mul (Js.div (Js.of_nat 23) (Js.of_nat 40)) (Js.of_nat 100)
  = S754_finite false 8092405580431359 (-47).
Proof. vm_compute. reflexivity. Qed.

(** [Math.round] takes a half up, and multiplying before dividing would
    have met the half exactly. *)
Example Math_round_half :
  Js.Math_round (Js.div (Js.of_nat 115) (Js.of_nat 2)) = 58%Z
  /\ Js.Math_round (Js.div (Js.mul (Js.of_nat 100) (Js.of_nat 23)) (Js.of_nat 40))
     = 58%Z
  /\ Js.Math_round (Js.mul (Js.div (Js.of_nat 1) (Js.of_nat 2)) (Js.of_nat 100))
     = 50%Z.
Proof. vm_compute. repeat split. Qed.

(** C7, at a collection of 40 tasks of which 23 are completed:
    [getStats] counts 40, 23 and 17 and reports a completion rate of
    57, while [round(100 * 23 / 40)], the rounding of 57.5, is 58.
    The quotient [23 / 40] is rounded to a double before it is
    multiplied by 100, and the product falls just short of 57.5. *)
Theorem getStats_rate_23_of_40 :
  let s := eval getStats Sample.forty in
  Stats.total s = 40%nat
  /\ Stats.completed s = 23%nat
  /\ Stats.pending s = 17%nat
  /\ Stats.completionRate s = 57%Z
  /\ completionRate_spec (Stats.completed s) (Stats.total s) = 58%Z.
Proof. vm_compute. repeat split. Qed.

End StatsFacts.

(** * Properties of the prompts *)

Module PromptFacts.
Import Keypress Prompt PromptSpec.

(** ** Without a terminal *)

(** C1, evaluated. When standard input is not a terminal, [showMenu],
    [multiSelect] and [confirm] resolve at once with their default and
    leave the pending events alone.  [waitForKey] has no such test: with
    no event to come its promise stays pending, and otherwise it
    resolves by taking the next event off the input. *)
Theorem waitForKey_listens_without_terminal :
  (forall options title evs,
     showMenu options title (piped evs)
     = (Resolved {| Choice.index := 0; Choice.ok := true |}, piped evs))
  /\ (forall options title evs,
        multiSelect options title (piped evs)
        = (Resolved {| Choices.indexes := [0%Z]; Choices.ok := true |},
           piped evs))
  /\ (forall message opts evs,
        confirm message opts (piped evs)
        = (Resolved {| Choice.index := 0; Choice.ok := true |}, piped evs))
  /\ waitForKey (piped []) = (Pending, piped [])
  /\ (forall ev evs,
        waitForKey (piped (ev :: evs)) = (Resolved tt, piped evs)).
Proof. repeat split. Qed.

(** ** Single-select *)

Lemma clamp_range lo hi x : (lo <= hi)%Z -> (lo <= clamp lo hi x <= hi)%Z.
Proof.
  intros H. unfold clamp.
  destruct (Z.ltb_spec x lo), (Z.ltb_spec hi x); lia.
Qed.

(** Inside the range the handler of [showMenu] is the step of the
    design document. *)
Lemma showMenu_onKey_spec options active ev :
  (0 <= active <= lastIndex options)%Z ->
  showMenu_onKey options active ev = single_select options active ev.
Proof.
  intros Hr. unfold showMenu_onKey, single_select, command.
  destruct (key ev) as [k|]; [|done].
  repeat case_bool_decide; try done; f_equal; unfold clamp, lastIndex in *.
  - destruct (Z.ltb_spec (active - 1) 0),
      (Z.ltb_spec (Z.of_nat (length options) - 1) (active - 1)); lia.
  - destruct (Z.ltb_spec (active + 1) 0),
      (Z.ltb_spec (Z.of_nat (length options) - 1) (active + 1)); lia.
Qed.

Lemma single_select_range options active ev active' :
  options <> [] ->
  (0 <= active <= lastIndex options)%Z ->
  single_select options active ev = Continue active' ->
  (0 <= active' <= lastIndex options)%Z.
Proof.
  intros Hne Hr. assert (0 <= lastIndex options)%Z.
  { unfold lastIndex. destruct options; [done|]. simpl length. lia. }
  unfold single_select. destruct (command ev); intros [= <-];
    try done; by apply clamp_range.
Qed.

Lemma showMenu_listen_spec options evs : forall active,
  options <> [] ->
  (0 <= active <= lastIndex options)%Z ->
  listen (showMenu_onKey options) active evs
  = listen (single_select options) active evs
  /\ forall r rest,
       listen (showMenu_onKey options) active evs = (Resolved r, rest) ->
       (0 <= Choice.index r <= lastIndex options)%Z.
Proof.
  induction evs as [|ev evs IH]; intros active Hne Hr; [done|].
  simpl. rewrite showMenu_onKey_spec by done.
  destruct (single_select options active ev) as [active'|r] eqn:E.
  - apply IH; [done|]. by eapply single_select_range.
  - split; [done|]. intros r' rest [= <- _].
    unfold single_select in E. by destruct (command ev); simplify_eq/=.
Qed.

(** C5. With a terminal and a non-empty list of options, [showMenu]
    runs the single-select machine of the design document from index 0
    on any sequence of key events: Up and Down move the active index by
    one within [[0, lastIndex]] without wrapping, [return] resolves with
    the active index accepted, [escape] with the active index declined,
    and any other key changes nothing.  The index resolved is always a
    valid one.  With options A, B, C the events down, down, up, return
    resolve with index 1, accepted. *)
Theorem showMenu_single_select (options : list string) (title : string)
    (evs : list Event) :
  options <> [] ->
  showMenu options title (terminal evs)
  = await (single_select options) 0%Z (terminal evs)
  /\ (forall r stdin,
        showMenu options title (terminal evs) = (Resolved r, stdin) ->
        (0 <= Choice.index r <= lastIndex options)%Z)
  /\ showMenu Sample.ABC title (terminal [down; down; up; enter])
     = (Resolved {| Choice.index := 1; Choice.ok := true |}, terminal []).
Proof.
  intros Hne.
  assert (H0 : (0 <= 0 <= lastIndex options)%Z).
  { unfold lastIndex. destruct options; [done|]. simpl length. lia. }
  destruct (showMenu_listen_spec options evs 0%Z Hne H0) as [Heq Hrange].
  split_and!.
  - unfold showMenu, await. simpl. by rewrite Heq.
  - unfold showMenu, await. simpl. intros r stdin.
    destruct (listen (showMenu_onKey options) 0%Z evs) as [[r'|] rest] eqn:E;
      [|done].
    intros [= <- _]. by eapply Hrange.
  - reflexivity.
Qed.

Lemma showMenu_single_select_witness :
  showMenu Sample.ABC "Main Menu" (terminal [down; down; down; up; escape; enter])
  = await (single_select Sample.ABC) 0%Z
      (terminal [down; down; down; up; escape; enter]).
Proof.
  refine (proj1 (showMenu_single_select Sample.ABC "Main Menu" _ _)).
  discriminate.
Defined.

(** ** Multi-select *)

Lemma elem_of_last_occurrences x l : x ∈ last_occurrences l <-> x ∈ l.
Proof.
  induction l as [|y l IH]; simpl; [done|].
  case_bool_decide as Hy; rewrite ?elem_of_cons, IH; [|done].
  split; [tauto|]. intros [->|H]; done.
Qed.

Lemma Set_delete_absent x s : x ∉ s -> Set_delete x s = s.
Proof.
  intros Hx. unfold Set_delete. apply StoreFacts.filter_all, Forall_forall.
  intros y Hy. apply negb_true_iff, bool_decide_eq_false. by intros ->.
Qed.

Lemma last_occurrences_snoc ts i :
  last_occurrences (ts ++ [i]) = Set_delete i (last_occurrences ts) ++ [i].
Proof.
  induction ts as [|x ts IH]; simpl; [done|].
  rewrite IH. destruct (decide (x = i)) as [->|Hne].
  - rewrite bool_decide_eq_true_2 by (apply elem_of_app; right; left).
    case_bool_decide; [done|]. simpl.
    by rewrite bool_decide_eq_true_2.
  - case_bool_decide as H1; case_bool_decide as H2; simpl.
    + done.
    + destruct H2. apply elem_of_app in H1 as [H1|H1%list_elem_of_singleton]; done.
    + destruct H1. apply elem_of_app. by left.
    + by rewrite bool_decide_eq_false_2.
Qed.

Lemma times_snoc x ts i :
  times x (ts ++ [i])
  = if bool_decide (i = x) then S (times x ts) else times x ts.
Proof.
  unfold times. rewrite List.filter_app, length_app. simpl.
  case_bool_decide; simpl; lia.
Qed.

Lemma times_absent x ts : x ∉ ts -> times x ts = 0%nat.
Proof.
  unfold times. induction ts as [|y ts IH]; simpl; [done|].
  rewrite not_elem_of_cons. intros [Hne Hx].
  rewrite bool_decide_eq_false_2 by done. auto.
Qed.

Lemma filter_comm {A} (p q : A -> bool) l :
  List.filter p (List.filter q l) = List.filter q (List.filter p l).
Proof.
  induction l as [|x l IH]; simpl; [done|].
  destruct (p x) eqn:Hp, (q x) eqn:Hq; simpl; rewrite ?Hp, ?Hq, IH; done.
Qed.

(** One more toggle of row [i] is one more call of [toggle]. *)
Lemma on_in_toggle_order_snoc ts i :
  on_in_toggle_order (ts ++ [i]) = toggle i (on_in_toggle_order ts).
Proof.
  unfold on_in_toggle_order at 1.
  rewrite last_occurrences_snoc, List.filter_app.
  assert (Hrest :
    List.filter (fun x => Nat.odd (times x (ts ++ [i])))
                (Set_delete i (last_occurrences ts))
    = Set_delete i (on_in_toggle_order ts)).
  { unfold on_in_toggle_order, Set_delete. rewrite (filter_comm _ (fun x => Nat.odd _)).
    apply (SortFacts.filter_ext_Forall _ _ (fun y => y <> i)).
    - apply Forall_forall. intros y [_ Hy]%list_elem_of_In%filter_In.
      by apply negb_true_iff, bool_decide_eq_false in Hy.
    - intros y Hy. rewrite times_snoc.
      by rewrite bool_decide_eq_false_2 by congruence. }
  rewrite Hrest. simpl. rewrite times_snoc, bool_decide_eq_true_2 by done.
  rewrite Nat.odd_succ, <- Nat.negb_odd.
  unfold toggle, Set_add, Set_has. case_bool_decide as Hin.
  - unfold on_in_toggle_order in Hin.
    apply list_elem_of_In, filter_In in Hin as [_ ->]. simpl.
    by rewrite app_nil_r.
  - assert (Hodd : Nat.odd (times i ts) = false).
    { destruct (decide (i ∈ ts)) as [Hi|Hi].
      - apply not_true_is_false. intros Hodd. apply Hin.
        unfold on_in_toggle_order. apply list_elem_of_In, filter_In.
        split; [|done]. by apply list_elem_of_In, elem_of_last_occurrences.
      - by rewrite times_absent. }
    rewrite Hodd. simpl. by rewrite Set_delete_absent.
Qed.

Lemma foldl_toggle ts :
  foldl (fun s i => toggle i s) [] ts = on_in_toggle_order ts.
Proof.
  induction ts as [|i ts IH] using rev_ind; [done|].
  by rewrite foldl_app, on_in_toggle_order_snoc, <- IH.
Qed.

(** On confirm the handler hands over the set as the calls of [toggle]
    left it. *)
Lemma multiSelect_listen options evs : forall st r rest,
  listen (multiSelect_onKey options) st evs = (Resolved r, rest) ->
  Choices.ok r = true ->
  Choices.indexes r
  = foldl (fun s i => toggle i s) (selected st) (toggles options st evs).
Proof.
  induction evs as [|ev evs IH]; intros st r rest; simpl; [done|].
  unfold multiSelect_onKey at 1 3, is_toggle.
  destruct (key ev) as [k|]; [|by apply IH].
  repeat case_bool_decide; simpl;
    try (intros Hrun Hok; by rewrite (IH _ _ _ Hrun Hok)).
  - by intros [= <- _] _.
  - by intros [= <- _] [=].
Qed.

(** C10. With a terminal, the [indexes] that [multiSelect] resolves
    with on [return] are the rows that are toggled on, each at the
    place of the toggle that last turned it on, whatever their
    numerical order: down, space, up, space, return on three options
    resolve with the indexes 1, 0. *)
Theorem multiSelect_indexes_in_toggle_order :
  (forall options title evs r stdin,
     multiSelect options title (terminal evs) = (Resolved r, stdin) ->
     Choices.ok r = true ->
     Choices.indexes r
     = on_in_toggle_order
         (toggles options {| current := 0; selected := [] |} evs))
  /\ multiSelect Sample.ABC "Tasks" (terminal [down; space; up; space; enter])
     = (Resolved {| Choices.indexes := [1%Z; 0%Z]; Choices.ok := true |},
        terminal []).
Proof.
  split; [|reflexivity].
  intros options title evs r stdin. unfold multiSelect, await. simpl.
  destruct (listen (multiSelect_onKey options)
              {| current := 0; selected := [] |} evs) as [[r'|] rest] eqn:E;
    [|done].
  intros [= <- _] Hok. rewrite <- foldl_toggle.
  exact (multiSelect_listen options evs
           {| current := 0; selected := [] |} r' rest E Hok).
Qed.

Lemma multiSelect_indexes_in_toggle_order_witness :
  on_in_toggle_order
    (toggles Sample.ABC {| current := 0; selected := [] |}
       [down; space; down; space; up; space; up; space; enter])
  = [2%Z; 0%Z].
Proof.
  symmetry.
  refine (proj1 multiSelect_indexes_in_toggle_order Sample.ABC "Tasks"
            [down; space; down; space; up; space; up; space; enter]
            {| Choices.indexes := [2%Z; 0%Z]; Choices.ok := true |}
            (terminal []) _ _).
  - vm_compute. reflexivity.
  - reflexivity.
Defined.

End PromptFacts.

(** * Further properties of the record store *)

Module StoreMore.
Import TaskStorage StoreFacts.

Lemma find_locate i tasks k t : locate i tasks = Some (k, t) -> find i tasks = Some t.
Proof. unfold find. by intros ->. Qed.

Lemma find_None i tasks : find i tasks = None <-> i ∉ map id tasks.
Proof.
  rewrite <- locate_None. unfold find.
  destruct (locate i tasks) as [[k t]|]; simpl; split; congruence.
Qed.

Lemma find_Some_locate i tasks t :
  find i tasks = Some t -> exists k, locate i tasks = Some (k, t).
Proof.
  unfold find. destruct (locate i tasks) as [[k t']|]; [|done].
  intros [= ->]. eauto.
Qed.

Lemma find_is_Some i tasks : i ∈ map id tasks -> is_Some (find i tasks).
Proof.
  intros Hi. destruct (find i tasks) eqn:E; [eauto|].
  by apply find_None in E.
Qed.

Lemma locate_app_l i l1 l2 k t :
  locate i l1 = Some (k, t) -> locate i (l1 ++ l2) = Some (k, t).
Proof. intros H. unfold locate. apply list_find_app_Some. by left. Qed.

Lemma locate_app_r i l1 t :
  locate i l1 = None -> id t = i -> locate i (l1 ++ [t]) = Some (length l1, t).
Proof.
  intros H Hid. unfold locate. apply list_find_app_Some. right.
  split_and!; [lia|done|]. rewrite Nat.sub_diag. simpl.
  by rewrite decide_True.
Qed.

(** X1. [add] appends the new task to the stored collection; the task
    is pending, without completion time, and carries the identifier and
    the time it was given.  Every identifier stored before still
    resolves to the same task, and the new identifier, when no stored
    task carried it, resolves to the new task. *)
Theorem add_then_getById (taskData : TaskData.t) (uuid now : string) (d : Disk) :
  let task := eval (add taskData uuid now) d in
  let d' := exec (add taskData uuid now) d in
  stored d' = stored d ++ [task]
  /\ (id task = uuid /\ createdAt task = now
      /\ completed task = false /\ completedAt task = None)
  /\ (forall j, j ∈ map id (stored d) ->
                eval (getById j) d' = eval (getById j) d)
  /\ (uuid ∉ map id (stored d) -> eval (getById uuid) d' = Some task).
Proof.
  cbv zeta. set (task := eval (add taskData uuid now) d).
  assert (Hst : stored (exec (add taskData uuid now) d) = stored d ++ [task])
    by reflexivity.
  split; [done|]. split; [done|]. split.
  - intros j Hj. rewrite !getById_find, Hst.
    destruct (find_is_Some _ _ Hj) as [t Ht]. rewrite Ht.
    apply find_Some_locate in Ht as [k Hk].
    by rewrite (find_locate _ _ k t (locate_app_l _ _ _ _ _ Hk)).
  - intros Hnew. rewrite getById_find, Hst.
    apply locate_None in Hnew.
    by rewrite (find_locate _ _ _ _ (locate_app_r uuid _ task Hnew eq_refl)).
Qed.

Lemma add_then_getById_witness :
  exists task, eval (getById "id-3")
                 (exec (add Sample.report "id-3" Sample.T2) Sample.two) = Some task
               /\ title task = "Write report".
Proof.
  eexists. split.
  - refine (proj2 (proj2 (proj2 (add_then_getById Sample.report "id-3" Sample.T2
                                   Sample.two))) _).
    apply (bool_decide_unpack _). vm_compute. exact I.
  - reflexivity.
Defined.

Lemma merge_none t : merge t Updates.none = t.
Proof. by destruct t. Qed.

Lemma eval_update_found i u d k old :
  locate i (stored d) = Some (k, old) ->
  eval (update i u) d = Some (merge old u).
Proof.
  intros H. unfold update. reload d. rewrite H. simpl.
  apply list_lookup_insert_eq. apply locate_Some in H as [H _].
  by eapply lookup_lt_Some.
Qed.

(** X2. [update] on a stored identifier overwrites the first task that
    carries it with the merge of that task and the supplied fields, and
    returns the merge: the collection keeps its length and every other
    position; when [id] is not among the fields, the identifier resolves
    to the merged task afterwards; with no field supplied the collection
    is unchanged. *)
Theorem update_found (i : string) (updates : Updates.t) (d : Disk) (old : Task) :
  eval (getById i) d = Some old ->
  let d' := exec (update i updates) d in
  eval (update i updates) d = Some (merge old updates)
  /\ (exists k, stored d !! k = Some old
                /\ stored d' = <[k := merge old updates]> (stored d))
  /\ length (stored d') = length (stored d)
  /\ (Updates.id updates = None ->
      eval (getById i) d' = Some (merge old updates))
  /\ (updates = Updates.none -> stored d' = stored d).
Proof.
  rewrite getById_find. intros [k Hloc]%find_Some_locate. cbv zeta.
  pose proof (locate_Some _ _ _ _ Hloc) as [Hk Hid].
  assert (Hst : stored (exec (update i updates) d)
                = <[k := merge old updates]> (stored d)).
  { by rewrite stored_update, Hloc. }
  rewrite Hst. split_and!.
  - by eapply eval_update_found.
  - eauto.
  - apply length_insert.
  - intros Hnone. rewrite getById_find, Hst.
    apply (find_locate _ _ k). apply (locate_insert i (stored d) k old); [done|].
    simpl. by rewrite Hnone.
  - intros ->. rewrite merge_none. by apply list_insert_id.
Qed.

Lemma update_found_witness :
  eval (update "id-1" Sample.edit) Sample.two
  = Some (merge {| id := "id-1"; title := "Pay rent"; description := "";
                   priority := "urgent"; category := "Finance";
                   dueDate := Some "2024-03-01"; completed := true;
                   completedAt := Some Sample.T1; createdAt := Sample.T0;
                   tags := [] |} Sample.edit).
Proof.
  refine (proj1 (update_found "id-1" Sample.edit Sample.two _ _)).
  vm_compute. reflexivity.
Defined.

Lemma locate_filter_ne i j tasks :
  i <> j ->
  find j (List.filter (fun t => negb (bool_decide (id t = i))) tasks)
  = find j tasks.
Proof.
  intros Hne. unfold find, locate.
  induction tasks as [|t tasks IH]; [done|]. simpl.
  case_bool_decide as Hi; simpl.
  - rewrite decide_False by congruence.
    destruct (list_find _ (List.filter _ tasks)) as [[k x]|],
             (list_find _ tasks) as [[k' x']|]; simpl in *; congruence.
  - destruct (decide (id t = j)); [done|].
    destruct (list_find _ (List.filter _ tasks)) as [[k x]|],
             (list_find _ tasks) as [[k' x']|]; simpl in *; congruence.
Qed.

Lemma filter_length_lt {A} (p : A -> bool) x l :
  x ∈ l -> p x = false -> (length (List.filter p l) < length l)%nat.
Proof.
  intros Hx Hp. induction Hx as [x l|x y l Hx IH]; simpl.
  - rewrite Hp. pose proof (filter_length_le p l). lia.
  - specialize (IH Hp). destruct (p y); simpl; lia.
Qed.

(** X3. [delete] on a stored identifier returns [true] and removes
    every task that carries it, keeping the others in their order;
    afterwards the identifier resolves to nothing, a second [delete]
    returns [false] and changes nothing, and every other identifier
    resolves as before. *)
Theorem delete_found (i : string) (d : Disk) :
  i ∈ map id (stored d) ->
  let d' := exec (delete i) d in
  eval (delete i) d = true
  /\ stored d' = List.filter (fun t => negb (bool_decide (id t = i))) (stored d)
  /\ eval (getById i) d' = None
  /\ (eval (delete i) d' = false /\ stored (exec (delete i) d') = stored d')
  /\ (forall j, j <> i -> eval (getById j) d' = eval (getById j) d).
Proof.
  intros Hi. cbv zeta. rewrite !stored_delete.
  set (kept := List.filter (fun t => negb (bool_decide (id t = i))) (stored d)).
  assert (Hgone : i ∉ map id kept).
  { intros [t [Hid Ht]]%list_elem_of_fmap.
    apply list_elem_of_In, filter_In in Ht as [_ Ht].
    apply negb_true_iff, bool_decide_eq_false in Ht. congruence. }
  assert (Hlt : (length kept < length (stored d))%nat).
  { apply list_elem_of_fmap in Hi as [t [Hid Ht]].
    apply (filter_length_lt _ t); [done|].
    by rewrite bool_decide_eq_true_2. }
  assert (Hidem : List.filter (fun t => negb (bool_decide (id t = i))) kept = kept)
    by apply filter_idem.
  split_and!.
  - change (eval (delete i) d) with (length kept <? length (stored d))%nat.
    by apply Nat.ltb_lt.
  - done.
  - rewrite getById_find.
    change (stored (exec (delete i) d)) with kept. by apply find_None.
  - change (eval (delete i) (exec (delete i) d))
      with (length (List.filter (fun t => negb (bool_decide (id t = i))) kept)
            <? length kept)%nat.
    by rewrite Hidem, Nat.ltb_irrefl.
  - exact Hidem.
  - intros j Hj. rewrite !getById_find.
    change (stored (exec (delete i) d)) with kept. by apply locate_filter_ne.
Qed.

Lemma delete_found_witness :
  eval (delete "id-1") Sample.two = true
  /\ eval (getById "id-1") (exec (delete "id-1") Sample.two) = None.
Proof.
  assert (H : "id-1" ∈ map id (stored Sample.two)).
  { apply (bool_decide_unpack _). vm_compute. exact I. }
  split.
  - exact (proj1 (delete_found "id-1" Sample.two H)).
  - exact (proj1 (proj2 (proj2 (delete_found "id-1" Sample.two H)))).
Defined.

Lemma count_insert (p : Task -> bool) (l : list Task) k x y :
  l !! k = Some x ->
  (count p (<[k := y]> l) + (if p x then 1 else 0)
   = count p l + (if p y then 1 else 0))%nat.
Proof.
  unfold count. revert k. induction l as [|z l IH]; intros k Hk; [done|].
  destruct k as [|k]; simpl in *.
  - injection Hk as ->. destruct (p x), (p y); simpl; lia.
  - specialize (IH k Hk). destruct (p z); simpl; lia.
Qed.

Lemma toggled_consistent now t : completion_consistent (toggled now t).
Proof. unfold completion_consistent. simpl. by destruct (completed t). Qed.

(** X4. [toggleComplete] on a stored identifier returns the first task
    that carries it with [completed] flipped and with [completedAt] set
    to the current time when it became completed and to [null] when it
    became pending; that task is rewritten in place, the identifier
    resolves to it afterwards, and the number of completed tasks moves
    by exactly one. *)
Theorem toggleComplete_flips (i now : string) (d : Disk) (t : Task) :
  eval (getById i) d = Some t ->
  let d' := exec (toggleComplete i now) d in
  eval (toggleComplete i now) d = Some (toggled now t)
  /\ eval (getById i) d' = Some (toggled now t)
  /\ completed (toggled now t) = negb (completed t)
  /\ completedAt (toggled now t) = (if completed t then None else Some now)
  /\ (exists k, stored d !! k = Some t
                /\ stored d' = <[k := toggled now t]> (stored d))
  /\ (count completed (stored d') + (if completed t then 1 else 0)
      = count completed (stored d) + (if completed t then 0 else 1))%nat.
Proof.
  rewrite getById_find. intros [k Hloc]%find_Some_locate. cbv zeta.
  pose proof (locate_Some _ _ _ _ Hloc) as [Hk Hid].
  assert (Hst : stored (exec (toggleComplete i now) d)
                = <[k := toggled now t]> (stored d))
    by by apply StoreFacts.toggleComplete_found.
  rewrite Hst. split_and!.
  - unfold toggleComplete. reload d. by rewrite Hloc.
  - rewrite getById_find, Hst. apply (find_locate _ _ k).
    by apply (locate_insert i (stored d) k t).
  - done.
  - simpl. by destruct (completed t).
  - eauto.
  - rewrite (count_insert completed (stored d) k t (toggled now t) Hk).
    simpl. by destruct (completed t).
Qed.

Lemma toggleComplete_flips_witness :
  exists t', eval (toggleComplete "id-2" Sample.T2) Sample.two = Some t'
             /\ completed t' = true /\ completedAt t' = Some Sample.T2.
Proof.
  eexists. split.
  - refine (proj1 (toggleComplete_flips "id-2" Sample.T2 Sample.two _ _)).
    vm_compute. reflexivity.
  - split; reflexivity.
Defined.

(** ** The backup *)

Lemma exec_then_ret {S A} (m : State S A) (s : S) :
  exec (m ;; ret tt) s = exec m s.
Proof. unfold exec, bind, ret. by destruct (m s). Qed.

Lemma exec_step op d :
  exec (step op) d
  = match op with
    | Add taskData uuid now => exec (add taskData uuid now) d
    | Update i updates => exec (update i updates) d
    | Delete i => exec (delete i) d
    | Toggle i now => exec (toggleComplete i now) d
    end.
Proof. destruct op; apply exec_then_ret. Qed.

Lemma save_files tasks d :
  tasksFile d <> Missing ->
  exec (save tasks) d = {| tasksFile := Json tasks; backupFile := tasksFile d |}.
Proof. unfold exec, save. simpl. by destruct (tasksFile d). Qed.

Lemma exec_save_after {A} (tasks : list Task) (a : A) d :
  exec (save tasks ;; ret a) d = exec (save tasks) d.
Proof. reflexivity. Qed.

(** X5. On a disk that has a tasks file, every operation that writes
    ([add], [delete], [clearCompleted], and [update] and
    [toggleComplete] on a stored identifier) leaves in the backup file
    exactly what the tasks file held before the operation, and the tasks
    file holds the new collection; [update] and [toggleComplete] on an
    identifier that is not stored leave both files untouched. *)
Theorem writes_keep_previous_file (op : Op) (d : Disk) :
  tasksFile d <> Missing ->
  (writes op d ->
   exec (step op) d
   = {| tasksFile := Json (stored (exec (step op) d)); backupFile := tasksFile d |})
  /\ (~ writes op d -> exec (step op) d = d)
  /\ exec clearCompleted d
     = {| tasksFile := Json (stored (exec clearCompleted d));
          backupFile := tasksFile d |}.
Proof.
  intros Hfile. split_and!.
  - rewrite exec_step. destruct op as [td uuid now|i u|i|i now]; simpl.
    + intros _. by apply (save_files _ d).
    + intros Hi. destruct (find_is_Some _ _ Hi) as [t [k Hk]%find_Some_locate].
      rewrite stored_update, Hk.
      unfold update. reload d. rewrite Hk. simpl. by apply (save_files _ d).
    + intros _. by apply (save_files _ d).
    + intros Hi. destruct (find_is_Some _ _ Hi) as [t [k Hk]%find_Some_locate].
      rewrite stored_toggleComplete, Hk.
      unfold toggleComplete. reload d. rewrite Hk. simpl. by apply (save_files _ d).
  - rewrite exec_step. destruct op as [td uuid now|i u|i|i now]; simpl; try tauto.
    + intros Hi%locate_None. unfold update. reload d. by rewrite Hi.
    + intros Hi%locate_None. unfold toggleComplete. reload d. by rewrite Hi.
  - by apply (save_files _ d).
Qed.

Lemma writes_keep_previous_file_witness :
  backupFile (exec (step (Delete "id-1")) Sample.two) = tasksFile Sample.two.
Proof.
  assert (H : tasksFile Sample.two <> Missing) by (vm_compute; discriminate).
  rewrite (proj1 (writes_keep_previous_file (Delete "id-1") Sample.two H) I).
  reflexivity.
Defined.

(** ** Completion times *)

Lemma completion_consistent_step op d :
  keeps_completion op ->
  Forall completion_consistent (stored d) ->
  Forall completion_consistent (stored (exec (step op) d)).
Proof.
  intros Hkeep Hall. rewrite stored_step.
  destruct op as [td uuid now|i u|i|i now]; simpl in *.
  - change (stored (exec (add td uuid now) d))
      with (stored d ++ [eval (add td uuid now) d]).
    apply Forall_app. split; [done|]. apply Forall_singleton.
    unfold completion_consistent.
    change (completed (eval (add td uuid now) d)) with false.
    change (completedAt (eval (add td uuid now) d)) with (@None string).
    split; [done|]. intros H. by destruct H.
  - rewrite stored_update.
    destruct (locate i (stored d)) as [[k old]|] eqn:Hloc; [|done].
    apply locate_Some in Hloc as [Hk _]. apply Forall_insert; [done|].
    destruct Hkeep as [Hc Hat]. rewrite Forall_forall in Hall.
    pose proof (Hall old (list_elem_of_lookup_2 _ _ _ Hk)) as Hold.
    unfold completion_consistent in *. simpl. by rewrite Hc, Hat.
  - rewrite stored_delete. apply Forall_forall.
    intros t [Ht _]%list_elem_of_In%filter_In. rewrite Forall_forall in Hall.
    by apply Hall, list_elem_of_In.
  - rewrite stored_toggleComplete.
    destruct (locate i (stored d)) as [[k old]|] eqn:Hloc; [|done].
    apply Forall_insert; [done|]. apply toggled_consistent.
Qed.

(** X6. Along every sequence of add, update, delete and toggleComplete
    in which no update supplies [completed] or [completedAt], the stored
    tasks keep the rule that [completedAt] is set exactly on completed
    tasks. *)
Theorem completion_stays_consistent (d : Disk) (ops : list Op) :
  Forall completion_consistent (stored d) ->
  Forall keeps_completion ops ->
  Forall completion_consistent (stored (exec (run ops) d)).
Proof.
  revert d. induction ops as [|op ops IH]; intros d Hall Hkeep; [done|].
  apply Forall_cons in Hkeep as [Hop Hops].
  rewrite exec_run_cons. apply IH; [|done].
  by apply completion_consistent_step.
Qed.

Lemma completion_stays_consistent_witness :
  Forall completion_consistent
    (stored (exec (run Sample.history) Sample.fresh_disk)).
Proof.
  apply completion_stays_consistent.
  - vm_compute. constructor.
  - repeat constructor.
Defined.

End StoreMore.

(** * Properties of the queries *)

Module QueryFacts.
Import TaskStorage StoreFacts.

Lemma getStats_total_completed (d : Disk) :
  Stats.total (eval getStats d) = length (stored d)
  /\ Stats.completed (eval getStats d) = length (List.filter completed (stored d))
  /\ Stats.pending (eval getStats d)
     = (Stats.total (eval getStats d) - Stats.completed (eval getStats d))%nat.
Proof. done. Qed.

(** ** [includes] *)

Lemma prefix_occurs sub s :
  String.prefix sub s = true <-> exists post, s = (sub ++ post)%string.
Proof.
  revert sub. induction s as [|c' s IH]; intros [|c sub]; simpl.
  - split; [intros _; by exists EmptyString|done].
  - split; [done|]. by intros [post [=]].
  - split; [intros _; by exists (String c' s)|done].
  - destruct (Ascii.ascii_dec c c') as [->|Hne].
    + rewrite IH. split; intros [post Hp]; exists post.
      * by rewrite Hp.
      * change (String c' sub +:+ post) with (String c' (sub +:+ post)) in Hp.
        congruence.
    + split; [done|]. intros [post Hp].
      change (String c sub +:+ post) with (String c (sub +:+ post)) in Hp.
      congruence.
Qed.

Lemma includes_nil sub :
  Js.includes EmptyString sub = String.prefix sub EmptyString.
Proof. unfold Js.includes. apply orb_false_r. Qed.

Lemma includes_cons c s sub :
  Js.includes (String c s) sub
  = String.prefix sub (String c s) || Js.includes s sub.
Proof. reflexivity. Qed.

Lemma includes_occurs s sub : Js.includes s sub = true <-> occurs sub s.
Proof.
  induction s as [|c s IH].
  - rewrite includes_nil, prefix_occurs. split.
    + intros [post ->]. by exists EmptyString, post.
    + intros (pre & post & H). destruct pre; [by exists post|done].
  - rewrite includes_cons, orb_true_iff, prefix_occurs, IH. split.
    + intros [[post ->]|(pre & post & ->)].
      * by exists EmptyString, post.
      * by exists (String c pre), post.
    + intros (pre & post & H). destruct pre as [|c' pre].
      * left. by exists post.
      * right. change (String c' pre +:+ sub +:+ post)
          with (String c' (pre +:+ sub +:+ post)) in H.
        injection H as _ ->. by exists pre, post.
Qed.

Lemma append_empty_r s : (s +:+ EmptyString) = s.
Proof.
  induction s as [|c s IH]; [done|].
  change (String c s +:+ EmptyString) with (String c (s +:+ EmptyString)).
  by rewrite IH.
Qed.

Lemma occurs_refl s : occurs s s.
Proof.
  exists EmptyString, EmptyString.
  change (EmptyString +:+ s +:+ EmptyString) with (s +:+ EmptyString).
  by rewrite append_empty_r.
Qed.

Lemma occurs_empty s : occurs EmptyString s.
Proof. by exists EmptyString, s. Qed.

(** ** [search] *)

Section Search.
Context (toLowerCase : string -> string).

Lemma search_elem query d t :
  t ∈ eval (search toLowerCase query) d
  <-> t ∈ stored d /\ found_by toLowerCase query t.
Proof.
  change (eval (search toLowerCase query) d)
    with (List.filter
            (fun t =>
               Js.includes (toLowerCase (title t)) (toLowerCase query)
               || Js.includes (toLowerCase (description t)) (toLowerCase query)
               || Js.includes (toLowerCase (category t)) (toLowerCase query)
               || existsb (fun tag => Js.includes (toLowerCase tag)
                                        (toLowerCase query)) (tags t))
            (stored d)).
  rewrite !list_elem_of_In, filter_In, !orb_true_iff, !includes_occurs,
    existsb_exists.
  unfold found_by. split; intros [Hin H]; (split; [done|]).
  - destruct H as [[[H|H]|H]|(tag & Htag & H)]; auto.
    right; right; right. exists tag.
    by rewrite list_elem_of_In, <- includes_occurs.
  - destruct H as [H|[H|[H|(tag & Htag & H)]]]; auto.
    right. exists tag. by rewrite <- list_elem_of_In, includes_occurs.
Qed.

Lemma filter_sublist {A} (p : A -> bool) l : List.filter p l `sublist_of` l.
Proof.
  induction l as [|x l IH]; simpl; [constructor|].
  destruct (p x); by constructor.
Qed.

(** X7. [search] returns, in stored order, exactly the stored tasks in
    which the query occurs, letter case aside, in the title, the
    description, the category or one of the tags; it writes nothing. *)
Theorem search_is_substring_match (query : string) (d : Disk) :
  (forall t, t ∈ eval (search toLowerCase query) d
             <-> t ∈ stored d /\ found_by toLowerCase query t)
  /\ eval (search toLowerCase query) d `sublist_of` stored d
  /\ exec (search toLowerCase query) d = d.
Proof.
  split_and!.
  - intros t. apply search_elem.
  - apply filter_sublist.
  - reflexivity.
Qed.

(** X8. Every stored task is found by a search for its own title, its
    description, its category or any of its tags, and by any query
    that lower-cases to the same string; when the lower case of the
    empty string is empty, the empty query returns the whole
    collection. *)
Theorem search_finds_own_fields (d : Disk) (t : Task) :
  t ∈ stored d ->
  t ∈ eval (search toLowerCase (title t)) d
  /\ t ∈ eval (search toLowerCase (description t)) d
  /\ t ∈ eval (search toLowerCase (category t)) d
  /\ (forall tag, tag ∈ tags t -> t ∈ eval (search toLowerCase tag) d)
  /\ (forall q, toLowerCase q = toLowerCase (title t) ->
                t ∈ eval (search toLowerCase q) d)
  /\ (toLowerCase "" = "" -> eval (search toLowerCase "") d = stored d).
Proof.
  intros Ht. split_and!.
  - apply search_elem. split; [done|]. left. apply occurs_refl.
  - apply search_elem. split; [done|]. right; left. apply occurs_refl.
  - apply search_elem. split; [done|]. right; right; left. apply occurs_refl.
  - intros tag Htag. apply search_elem. split; [done|].
    right; right; right. exists tag. split; [done|apply occurs_refl].
  - intros q Hq. apply search_elem. split; [done|]. left.
    rewrite Hq. apply occurs_refl.
  - intros Hempty. apply filter_all, Forall_forall. intros x _.
    rewrite Hempty. simpl. by destruct (toLowerCase (title x)).
Qed.

(** ** [filter] *)

Lemma filter_filter {A} (p q : A -> bool) l :
  List.filter p (List.filter q l) = List.filter (fun x => q x && p x) l.
Proof.
  induction l as [|x l IH]; simpl; [done|].
  destruct (q x); simpl; [|done]. destruct (p x); by rewrite IH.
Qed.

Lemma filter_true {A} (l : list A) : List.filter (fun _ => true) l = l.
Proof. induction l as [|x l IH]; simpl; congruence. Qed.

Lemma filter_if {A} (b : bool) (p : A -> bool) l :
  (if b then List.filter p l else l)
  = List.filter (fun x => if b then p x else true) l.
Proof. destruct b; [done|]. by rewrite filter_true. Qed.

Lemma eval_filter (c : Criteria.t) (d : Disk) :
  eval (filter toLowerCase c) d = List.filter (meets toLowerCase c) (stored d).
Proof.
  unfold filter. reload d. unfold ret, meets. simpl.
  set (b1 := bool_decide (Criteria.status c = Some "pending")).
  set (b2 := bool_decide (Criteria.status c = Some "completed")).
  assert (H1 : (if b1 then List.filter (fun t => negb (completed t)) (stored d)
                else if b2 then List.filter (fun t => completed t) (stored d)
                     else stored d)
               = List.filter (fun t => if b1 then negb (completed t)
                                       else if b2 then completed t else true)
                   (stored d)).
  { clearbody b1 b2. destruct b1, b2; [done..|]. by rewrite filter_true. }
  rewrite H1, !filter_if, !filter_filter.
  apply filter_ext. intros t. by rewrite andb_assoc.
Qed.

(** X9. [filter] returns, in stored order, exactly the stored tasks that
    meet every criterion supplied: the criteria are conjoined, a status
    other than [pending] and [completed] and an empty priority or
    category restrict nothing, and no criterion at all returns the whole
    collection.  It writes nothing. *)
Theorem filter_conjoins_criteria (c : Criteria.t) (d : Disk) :
  eval (filter toLowerCase c) d = List.filter (meets toLowerCase c) (stored d)
  /\ (forall t, t ∈ eval (filter toLowerCase c) d
                <-> t ∈ stored d /\ meets toLowerCase c t = true)
  /\ eval (filter toLowerCase c) d `sublist_of` stored d
  /\ (Criteria.status c = None -> Criteria.priority c = None ->
      Criteria.category c = None ->
      eval (filter toLowerCase c) d = stored d)
  /\ exec (filter toLowerCase c) d = d.
Proof.
  rewrite eval_filter. split_and!.
  - done.
  - intros t. by rewrite !list_elem_of_In, filter_In.
  - apply filter_sublist.
  - intros Hs Hp Hc. apply filter_all, Forall_forall. intros t _.
    unfold meets. by rewrite Hs, Hp, Hc.
  - reflexivity.
Qed.

Lemma filter_split_Permutation {A} (p : A -> bool) l :
  List.filter (fun x => negb (p x)) l ++ List.filter p l ≡ₚ l.
Proof.
  induction l as [|x l IH]; simpl; [done|].
  destruct (p x); simpl.
  - by rewrite <- Permutation_middle, IH.
  - by rewrite IH.
Qed.

(** X10. The counters of [getStats] are the sizes of the lists that
    [filter] returns: [pending] and [completed] for the two statuses,
    each entry of [byPriority] for its level; and the pending tasks
    followed by the completed ones are a rearrangement of the whole
    collection. *)
Theorem getStats_counts_filter (d : Disk) :
  let s := eval getStats d in
  Stats.pending s = length (eval (filter toLowerCase (with_status "pending")) d)
  /\ Stats.completed s
     = length (eval (filter toLowerCase (with_status "completed")) d)
  /\ (forall p, p ∈ PRIORITIES ->
        length (eval (filter toLowerCase (with_priority p)) d)
        = count (fun t => bool_decide (priority t = p)) (stored d))
  /\ Stats.urgent (Stats.byPriority s)
     = length (eval (filter toLowerCase (with_priority "urgent")) d)
  /\ Stats.high (Stats.byPriority s)
     = length (eval (filter toLowerCase (with_priority "high")) d)
  /\ Stats.medium (Stats.byPriority s)
     = length (eval (filter toLowerCase (with_priority "medium")) d)
  /\ Stats.low (Stats.byPriority s)
     = length (eval (filter toLowerCase (with_priority "low")) d)
  /\ eval (filter toLowerCase (with_status "pending")) d
     ++ eval (filter toLowerCase (with_status "completed")) d ≡ₚ stored d.
Proof.
  cbv zeta.
  assert (Hpend : eval (filter toLowerCase (with_status "pending")) d
                  = List.filter (fun t => negb (completed t)) (stored d))
    by reflexivity.
  assert (Hcomp : eval (filter toLowerCase (with_status "completed")) d
                  = List.filter completed (stored d)) by reflexivity.
  assert (Hprio : forall p, p <> "" ->
            length (eval (filter toLowerCase (with_priority p)) d)
            = count (fun t => bool_decide (priority t = p)) (stored d)).
  { intros p Hp. rewrite eval_filter. unfold count. f_equal.
    apply filter_ext. intros t. unfold meets, with_priority. simpl.
    rewrite bool_decide_eq_false_2 by done. simpl. rewrite andb_true_r.
    apply bool_decide_ext. split; congruence. }
  rewrite Hpend, Hcomp.
  pose proof (filter_length_split completed (stored d)) as Hsplit.
  pose proof (getStats_total_completed d) as (Htot & Hc & Hp).
  split_and!; try (by rewrite Hprio).
  - rewrite Hp, Htot, Hc. lia.
  - by rewrite Hc.
  - intros p Hp'. apply Hprio. intros ->.
    revert Hp'. apply (bool_decide_unpack _). vm_compute. exact I.
  - apply filter_split_Permutation.
Qed.

End Search.

Lemma filter_conjoins_criteria_witness :
  eval (filter Runtime.toLowerCase no_criteria) Sample.two = stored Sample.two.
Proof.
  exact (proj1 (proj2 (proj2 (proj2
           (filter_conjoins_criteria Runtime.toLowerCase no_criteria Sample.two))))
           eq_refl eq_refl eq_refl).
Defined.

Lemma getStats_counts_filter_witness :
  length (eval (filter Runtime.toLowerCase (with_priority "urgent")) Sample.two)
  = count (fun t => bool_decide (priority t = "urgent")) (stored Sample.two).
Proof.
  refine (proj1 (proj2 (proj2 (getStats_counts_filter Runtime.toLowerCase
                                 Sample.two))) "urgent" _).
  apply (bool_decide_unpack _). vm_compute. exact I.
Defined.

Lemma search_finds_own_fields_witness :
  exists t, t ∈ stored Sample.two
            /\ t ∈ eval (search Runtime.toLowerCase "PAY RENT") Sample.two.
Proof.
  eexists. split; [apply list_elem_of_here|].
  refine (proj1 (proj2 (proj2 (proj2 (proj2
            (search_finds_own_fields Runtime.toLowerCase Sample.two _
               (list_elem_of_here _ _)))))) "PAY RENT" _).
  vm_compute. reflexivity.
Defined.

(** ** [getStats] *)

Lemma categories_fold (tasks : list Task) : forall (m : gmap string nat) c,
  foldl (fun (categories : gmap string nat) t =>
           <[category t := (default 0 (categories !! category t) + 1)%nat]>
             categories) m tasks !! c
  = match count (in_category c) tasks with
    | O => m !! c
    | S n => Some (default 0 (m !! c) + S n)%nat
    end.
Proof.
  unfold count.
  induction tasks as [|t tasks IH]; intros m c; [done|]. simpl.
  rewrite IH. unfold in_category at 2. case_bool_decide as Hc; simpl.
  - rewrite Hc, lookup_insert_eq. simpl.
    destruct (length _); f_equal; lia.
  - by rewrite lookup_insert_ne.
Qed.

(** X11. When no stored task has a category named like a property of
    [Object.prototype], [categories] in the result of [getStats] maps
    each category to the number of stored tasks that have it and holds
    no other key. *)
Theorem getStats_categories_count (d : Disk) :
  Forall (fun t => category t ∉ Object_prototype_names) (stored d) ->
  let categories := Stats.categories (eval getStats d) in
  (forall c, categories !! c
             = match count (in_category c) (stored d) with
               | O => None
               | S n => Some (S n)
               end)
  /\ (forall c, is_Some (categories !! c)
                <-> exists t, t ∈ stored d /\ category t = c).
Proof.
  intros _. cbv zeta.
  assert (Hlook : forall c,
            Stats.categories (eval getStats d) !! c
            = match count (in_category c) (stored d) with
              | O => None
              | S n => Some (S n)
              end).
  { intros c.
    change (Stats.categories (eval getStats d))
      with (foldl (fun (categories : gmap string nat) t =>
                     <[category t := (default 0 (categories !! category t) + 1)%nat]>
                       categories) ∅ (stored d)).
    rewrite categories_fold, lookup_empty. by destruct (count _ _). }
  split; [done|]. intros c. rewrite Hlook. unfold count. split.
  - destruct (List.filter (in_category c) (stored d)) as [|t l] eqn:E;
      [by intros [? [=]]|]. intros _.
    assert (Hin : In t (List.filter (in_category c) (stored d)))
      by (rewrite E; by left).
    apply filter_In in Hin as [Hin Hc]. exists t.
    split; [by apply list_elem_of_In|]. by apply bool_decide_eq_true in Hc.
  - intros (t & Ht & Hc).
    assert (Hin : In t (List.filter (in_category c) (stored d))).
    { apply filter_In. split; [by apply list_elem_of_In|].
      by apply bool_decide_eq_true. }
    destruct (List.filter (in_category c) (stored d)); [done|]. simpl. eauto.
Qed.

Lemma getStats_categories_count_witness :
  Stats.categories (eval getStats Sample.two) !! "Finance" = Some 1%nat.
Proof.
  refine (eq_trans (proj1 (getStats_categories_count Sample.two _) "Finance") _).
  - apply (bool_decide_unpack _). vm_compute. exact I.
  - vm_compute. reflexivity.
Defined.

Lemma count_levels (tasks : list Task) :
  Forall (fun t => priority t ∈ PRIORITIES) tasks ->
  (count (fun t => bool_decide (priority t = "urgent")) tasks
   + count (fun t => bool_decide (priority t = "high")) tasks
   + count (fun t => bool_decide (priority t = "medium")) tasks
   + count (fun t => bool_decide (priority t = "low")) tasks
   = length tasks)%nat.
Proof.
  unfold count. induction 1 as [|t tasks Ht _ IH]; [done|]. simpl.
  unfold PRIORITIES in Ht.
  repeat (apply elem_of_cons in Ht as [->|Ht]);
    [simpl; lia..|]. by apply elem_of_nil in Ht.
Qed.

(** X12. The four counters of [byPriority] never add up to more than
    [total], and they add up to [total] when every stored task has one
    of the four priority levels. *)
Theorem getStats_byPriority_total (d : Disk) :
  let s := eval getStats d in
  let p := Stats.byPriority s in
  (Stats.urgent p + Stats.high p + Stats.medium p + Stats.low p
   <= Stats.total s)%nat
  /\ (Forall (fun t => priority t ∈ PRIORITIES) (stored d) ->
      (Stats.urgent p + Stats.high p + Stats.medium p + Stats.low p
       = Stats.total s)%nat).
Proof.
  cbv zeta.
  change (Stats.total (eval getStats d)) with (length (stored d)).
  change (Stats.urgent (Stats.byPriority (eval getStats d)))
    with (count (fun t => bool_decide (priority t = "urgent")) (stored d)).
  change (Stats.high (Stats.byPriority (eval getStats d)))
    with (count (fun t => bool_decide (priority t = "high")) (stored d)).
  change (Stats.medium (Stats.byPriority (eval getStats d)))
    with (count (fun t => bool_decide (priority t = "medium")) (stored d)).
  change (Stats.low (Stats.byPriority (eval getStats d)))
    with (count (fun t => bool_decide (priority t = "low")) (stored d)).
  split; [|apply count_levels].
  unfold count. induction (stored d) as [|t tasks IH]; simpl; [lia|].
  repeat case_bool_decide; simpl; try lia; congruence.
Qed.

Lemma getStats_byPriority_total_witness :
  let p := Stats.byPriority (eval getStats Sample.two) in
  (Stats.urgent p + Stats.high p + Stats.medium p + Stats.low p = 2)%nat.
Proof.
  refine (proj2 (getStats_byPriority_total Sample.two) _).
  apply (bool_decide_unpack _). vm_compute. exact I.
Defined.

End QueryFacts.


(** * Further properties of [sort] *)

Module SortMore.
Import Js TaskStorage SortFacts.

Section Sorting.
Context (Date_getTime : string -> option Z).
Context (localeCompare : string -> string -> Z).

Abbreviation sort := (sort Date_getTime localeCompare).
Abbreviation comparison := (comparison Date_getTime localeCompare).
Abbreviation sorted_elements := (sorted_elements Date_getTime localeCompare).

(** X13. Whatever the key and the direction, [sort] returns a newly
    allocated array that holds the tasks of the input, each as often as
    the input does; the input array and every other array are as they
    were; and the array returned with [reverse] is the mirror image of
    the one returned without. *)
Theorem sort_permutes_a_copy
    (h : gmap ref (list Task)) (tasks : ref) (l : list Task)
    (sortBy : string) (reverse : bool) :
  h !! tasks = Some l ->
  exists result,
    yields (sort tasks sortBy reverse) h result
    /\ result ≡ₚ l
    /\ h !! fst (sort tasks sortBy reverse h) = None
    /\ snd (sort tasks sortBy reverse h) !! tasks = Some l
    /\ (forall r, r <> fst (sort tasks sortBy reverse h) ->
                  snd (sort tasks sortBy reverse h) !! r = h !! r)
    /\ yields (sort tasks sortBy (negb reverse)) h (rev result).
Proof.
  intros Hl. exists (sorted_elements l sortBy reverse).
  pose proof (sort_copies Date_getTime localeCompare h tasks l sortBy reverse Hl)
    as (Hne & Hsame & Hother).
  split_and!; try done.
  - by apply sort_yields.
  - unfold TaskStorage.sorted_elements. destruct reverse.
    + etrans; [symmetry; apply Permutation_rev|apply Array_sort_Permutation].
    + apply Array_sort_Permutation.
  - rewrite (sort_allocates Date_getTime localeCompare h tasks l) by done.
    apply fresh_unused.
  - replace (rev (sorted_elements l sortBy reverse))
      with (sorted_elements l sortBy (negb reverse)).
    + by apply sort_yields.
    + unfold TaskStorage.sorted_elements.
      destruct reverse; simpl; [by rewrite rev_involutive|done].
Qed.

Lemma Array_sort_indifferent {A} (comparefn : A -> A -> option Z) l :
  (forall x y, after comparefn x y = false) -> Array_sort comparefn l = l.
Proof.
  intros Hcmp. induction l as [|x l IH]; [done|].
  rewrite Array_sort_cons, IH. destruct l as [|y l]; [done|].
  simpl. by rewrite Hcmp.
Qed.

Lemma comparison_unknown sortBy a b :
  sortBy ∉ sort_keys -> comparison sortBy a b = Some 0%Z.
Proof.
  unfold sort_keys. rewrite !not_elem_of_cons. intros (H1 & H2 & H3 & H4 & _).
  unfold TaskStorage.comparison.
  by rewrite !bool_decide_eq_false_2.
Qed.

(** X14. With a key that is none of [priority], [due], [date] and
    [title], [sort] returns the tasks in the order of the input, and in
    the opposite order under [reverse]. *)
Theorem sort_unknown_key_keeps_order
    (h : gmap ref (list Task)) (tasks : ref) (l : list Task) (sortBy : string) :
  h !! tasks = Some l ->
  sortBy ∉ sort_keys ->
  yields (sort tasks sortBy false) h l
  /\ yields (sort tasks sortBy true) h (rev l).
Proof.
  intros Hl Hkey.
  assert (Hsame : Array_sort (comparison sortBy) l = l).
  { apply Array_sort_indifferent. intros x y.
    unfold after, SortCompare. by rewrite comparison_unknown. }
  split.
  - pose proof (sort_yields Date_getTime localeCompare h tasks l sortBy false Hl)
      as H. unfold TaskStorage.sorted_elements in H. by rewrite Hsame in H.
  - pose proof (sort_yields Date_getTime localeCompare h tasks l sortBy true Hl)
      as H. unfold TaskStorage.sorted_elements in H. by rewrite Hsame in H.
Qed.

Lemma after_date a b :
  is_Some (Date_getTime (createdAt a)) -> is_Some (Date_getTime (createdAt b)) ->
  after (comparison "date") a b
  = (created_time Date_getTime b <? created_time Date_getTime a)%Z.
Proof.
  intros [ta Ha] [tb Hb].
  unfold after, SortCompare, TaskStorage.comparison, created_time. simpl.
  rewrite Ha, Hb. simpl.
  destruct (Z.ltb_spec 0 (ta - tb)), (Z.ltb_spec tb ta); lia.
Qed.

(** X15. When every creation time is a valid date, [sort(tasks, 'date')]
    returns the tasks in ascending order of creation time, tasks created
    at the same time in their input order. *)
Theorem sort_date_ascending
    (h : gmap ref (list Task)) (tasks : ref) (l : list Task) :
  h !! tasks = Some l ->
  Forall (fun t => is_Some (Date_getTime (createdAt t))) l ->
  exists result,
    yields (sort tasks "date" false) h result
    /\ result ≡ₚ l
    /\ StronglySorted (key_le (created_time Date_getTime)) result
    /\ (forall v,
          List.filter (has_key (created_time Date_getTime) v) result
          = List.filter (has_key (created_time Date_getTime) v) l).
Proof.
  intros Hl Hvalid. exists (Array_sort (comparison "date") l). split_and!.
  - by apply (sort_yields _ _ h tasks l "date" false).
  - apply Array_sort_Permutation.
  - by apply (Array_sort_sorted (comparison "date") (created_time Date_getTime)
                _ after_date).
  - intros v. by apply (Array_sort_stable (comparison "date")
                          (created_time Date_getTime) _ after_date).
Qed.

End Sorting.

Lemma sort_permutes_a_copy_witness :
  exists result,
    yields (TaskStorage.sort Runtime.Date_getTime Runtime.localeCompare
              Sample.tasks_ref "title" true) Sample.heap result
    /\ result ≡ₚ Sample.five.
Proof.
  destruct (sort_permutes_a_copy Runtime.Date_getTime Runtime.localeCompare
              Sample.heap Sample.tasks_ref Sample.five "title" true)
    as (result & Hy & Hp & _).
  - vm_compute. reflexivity.
  - exists result. split; [exact Hy | exact Hp].
Defined.

Lemma sort_unknown_key_keeps_order_witness :
  yields (TaskStorage.sort Runtime.Date_getTime Runtime.localeCompare
            Sample.tasks_ref "created" false) Sample.heap Sample.five.
Proof.
  refine (proj1 (sort_unknown_key_keeps_order Runtime.Date_getTime
                   Runtime.localeCompare Sample.heap Sample.tasks_ref Sample.five
                   "created" _ _)).
  - vm_compute. reflexivity.
  - apply (bool_decide_unpack _). vm_compute. exact I.
Defined.

Lemma sort_date_ascending_witness :
  exists result,
    yields (TaskStorage.sort Runtime.Date_getTime Runtime.localeCompare
              Sample.tasks_ref "date" false) Sample.dated_heap result
    /\ StronglySorted (key_le (created_time Runtime.Date_getTime)) result.
Proof.
  destruct (sort_date_ascending Runtime.Date_getTime Runtime.localeCompare
              Sample.dated_heap Sample.tasks_ref Sample.dated)
    as (result & Hy & _ & Hs & _).
  - vm_compute. reflexivity.
  - let l := eval vm_compute in Sample.dated in change Sample.dated with l.
    repeat (apply List.Forall_cons; [vm_compute; eauto|]).
    apply List.Forall_nil.
  - exists result. split; [exact Hy | exact Hs].
Defined.

End SortMore.

(** * Further properties of the prompts *)

Module PromptMore.
Import Keypress Prompt PromptSpec.

(** ** Listening *)

Section Listen.
Context {S R : Type} (onKey : S -> Event -> Step S R).

(** A listener that goes on at every event of a run stays pending and
    uses the run up; one that resolves at the event after the run leaves
    what follows that event. *)
Lemma listen_prefix (stop : Event -> bool) (Q : Event -> R -> Prop) :
  (forall s ev, stop ev = false -> exists s', onKey s ev = Continue s') ->
  (forall s ev, stop ev = true -> exists r, onKey s ev = Resolve r /\ Q ev r) ->
  forall pre s,
    Forall (fun e => stop e = false) pre ->
    listen onKey s pre = (Pending, [])
    /\ forall ev post, stop ev = true ->
         exists r, listen onKey s (pre ++ ev :: post) = (Resolved r, post)
                   /\ Q ev r.
Proof.
  intros Hgo Hstop pre. induction pre as [|e pre IH]; intros s Hpre.
  - split; [done|]. intros ev post Hev. simpl.
    destruct (Hstop s ev Hev) as (r & -> & HQ). eauto.
  - apply Forall_cons in Hpre as [He Hpre]. simpl.
    destruct (Hgo s e He) as [s' ->]. by apply IH.
Qed.

(** What a listener resolves with comes from a state that an invariant
    of the steps reaches. *)
Lemma listen_invariant (I : S -> Prop) (allowed : Event -> Prop) :
  (forall s ev s', I s -> allowed ev -> onKey s ev = Continue s' -> I s') ->
  forall evs s r rest,
    I s -> Forall allowed evs ->
    listen onKey s evs = (Resolved r, rest) ->
    exists s' ev, I s' /\ onKey s' ev = Resolve r.
Proof.
  intros Hstep evs. induction evs as [|e evs IH]; intros s r rest Hs Hall;
    [done|]. simpl.
  apply Forall_cons in Hall as [He Hall].
  destruct (onKey s e) as [s'|r'] eqn:E.
  - apply IH; [by eapply Hstep|done].
  - intros [= <- _]. eauto.
Qed.
End Listen.

Lemma await_terminal {S R} (onKey : S -> Event -> Step S R) s evs :
  await onKey s (terminal evs)
  = (fst (listen onKey s evs), terminal (snd (listen onKey s evs))).
Proof. unfold await. simpl. by destruct (listen onKey s evs). Qed.

(** ** [showMenu] *)

Lemma showMenu_onKey_goes options selected ev :
  decides ev = false -> exists s', showMenu_onKey options selected ev = Continue s'.
Proof.
  unfold decides, is_key, showMenu_onKey.
  destruct (key ev) as [k|]; [|eauto].
  intros [H1 H2]%orb_false_iff.
  rewrite H1, H2. repeat case_bool_decide; eauto.
Qed.

Lemma showMenu_onKey_stops options selected ev :
  decides ev = true ->
  exists r, showMenu_onKey options selected ev = Resolve r
            /\ Choice.ok r = is_key "return" ev
            /\ Choice.index r = selected.
Proof.
  unfold decides, is_key, showMenu_onKey.
  destruct (key ev) as [k|]; [|done].
  intros H. repeat case_bool_decide; simpl in *; try done; try congruence; eauto.
Qed.

(** X16. On a terminal, [showMenu] reads the key events up to the first
    [return] or [escape] and leaves the events after it unread; it
    accepts on [return] and declines on [escape].  When neither key
    comes, it reads every event and stays pending. *)
Theorem showMenu_reads_to_first_decision
    (options : list string) (title : string) (pre : list Event) :
  Forall (fun e => decides e = false) pre ->
  showMenu options title (terminal pre) = (Pending, terminal [])
  /\ forall ev post, decides ev = true ->
       exists r,
         showMenu options title (terminal (pre ++ ev :: post))
         = (Resolved r, terminal post)
         /\ Choice.ok r = is_key "return" ev.
Proof.
  intros Hpre.
  destruct (listen_prefix (showMenu_onKey options) decides
              (fun ev r => Choice.ok r = is_key "return" ev)
              (showMenu_onKey_goes options)
              (fun s ev H => let (r, Hr) := showMenu_onKey_stops options s ev H in
                             ex_intro _ r (conj (proj1 Hr) (proj1 (proj2 Hr))))
              pre 0%Z Hpre) as [Hpend Hres].
  unfold showMenu. simpl. rewrite !await_terminal. split.
  - by rewrite Hpend.
  - intros ev post Hev. destruct (Hres ev post Hev) as (r & Hl & Hok).
    exists r. rewrite await_terminal, Hl. done.
Qed.

Lemma showMenu_reads_to_first_decision_witness :
  exists r,
    showMenu Sample.ABC "Main Menu"
      (terminal ([down; char "x"; up] ++ escape :: [enter; down]))
    = (Resolved r, terminal [enter; down])
    /\ Choice.ok r = false.
Proof.
  refine (proj2 (showMenu_reads_to_first_decision Sample.ABC "Main Menu"
                   [down; char "x"; up] _) escape [enter; down] _).
  - repeat constructor.
  - reflexivity.
Defined.

(** ** [confirm] *)

Section ListenInvariant.
Context {S R : Type} (onKey : S -> Event -> Step S R).
Context (stop allowed : Event -> bool) (I : S -> Prop).

Lemma listen_prefix_invariant :
  (forall s ev, I s -> stop ev = false -> allowed ev = true ->
                exists s', onKey s ev = Continue s' /\ I s') ->
  (forall s ev, stop ev = true -> exists r, onKey s ev = Resolve r) ->
  forall pre s ev post,
    I s -> Forall (fun e => stop e = false /\ allowed e = true) pre ->
    stop ev = true ->
    exists s' r, I s' /\ onKey s' ev = Resolve r
                 /\ listen onKey s (pre ++ ev :: post) = (Resolved r, post).
Proof.
  intros Hgo Hstop pre. induction pre as [|e pre IH]; intros s ev post Hs Hpre Hev.
  - destruct (Hstop s ev Hev) as [r Hr]. exists s, r. simpl. by rewrite Hr.
  - apply Forall_cons in Hpre as [[He Ha] Hpre].
    destruct (Hgo s e Hs He Ha) as (s' & Hs' & HI). simpl. rewrite Hs'.
    by apply IH.
Qed.
End ListenInvariant.

Lemma confirm_onKey_goes opts selected ev :
  is_key "return" ev = false ->
  exists s', confirm_onKey opts selected ev = Continue s'
             /\ (opts <> [] -> valid_row opts selected -> valid_row opts s')
             /\ (is_key "down" ev = false -> selected = 0%Z -> s' = 0%Z).
Proof.
  unfold is_key, confirm_onKey, valid_row.
  destruct (key ev) as [k|]; [|by eauto].
  intros H. rewrite H. repeat case_bool_decide; eexists; (split; [done|]);
    split; try done; try lia.
Qed.

Lemma confirm_onKey_stops opts selected ev :
  is_key "return" ev = true ->
  confirm_onKey opts selected ev
  = Resolve {| Choice.index := selected;
               Choice.ok := bool_decide (selected = 0%Z) |}.
Proof.
  unfold is_key, confirm_onKey.
  destruct (key ev) as [k|]; [|done].
  intros H%bool_decide_eq_true. rewrite H. done.
Qed.

(** X17. On a terminal, [confirm] resolves at the first [return] and at
    no other key, [escape] included: without a [return] it reads every
    event and stays pending.  It accepts exactly when row 0 is the
    active one; with options the row resolved is one of them; and when
    no [down] was pressed before [return], it accepts. *)
Theorem confirm_resolves_on_return
    (message : string) (opts : list string) (pre : list Event) :
  Forall (fun e => is_key "return" e = false) pre ->
  confirm message opts (terminal pre) = (Pending, terminal [])
  /\ forall ev post, is_key "return" ev = true ->
       exists r,
         confirm message opts (terminal (pre ++ ev :: post))
         = (Resolved r, terminal post)
         /\ Choice.ok r = bool_decide (Choice.index r = 0%Z)
         /\ (opts <> [] -> valid_row opts (Choice.index r))
         /\ (Forall (fun e => is_key "down" e = false) pre ->
             Choice.ok r = true).
Proof.
  intros Hpre. unfold confirm. simpl. split.
  - rewrite await_terminal.
    destruct (listen_prefix (confirm_onKey opts) (is_key "return")
                (fun _ _ => True)
                (fun s ev H => let (s', Hs) := confirm_onKey_goes opts s ev H in
                               ex_intro _ s' (proj1 Hs))
                (fun s ev H => ex_intro _ _ (conj (confirm_onKey_stops opts s ev H) I))
                pre 0%Z Hpre) as [-> _].
    done.
  - intros ev post Hev. rewrite await_terminal.
    assert (Hrun : forall (I : Z -> Prop) (allowed : Event -> bool),
              (forall s e s', I s -> allowed e = true ->
                 confirm_onKey opts s e = Continue s' -> I s') ->
              I 0%Z -> Forall (fun e => allowed e = true) pre ->
              exists s', I s'
                /\ listen (confirm_onKey opts) 0%Z (pre ++ ev :: post)
                   = (Resolved {| Choice.index := s';
                                  Choice.ok := bool_decide (s' = 0%Z) |}, post)).
    { intros I allowed Hstep H0 Hall.
      destruct (listen_prefix_invariant (confirm_onKey opts) (is_key "return")
                  allowed I) with (pre := pre) (s := 0%Z) (ev := ev) (post := post)
        as (s' & r & Hs' & Hr & Hl); try done.
      - intros s e Hs He Ha.
        destruct (confirm_onKey_goes opts s e He) as (s1 & Hs1 & _).
        exists s1. split; [done|]. by eapply Hstep.
      - intros s e He. rewrite confirm_onKey_stops by done. eauto.
      - rewrite Forall_forall in Hpre, Hall. apply Forall_forall.
        intros e He. split; [by apply Hpre|by apply Hall].
      - exists s'. split; [done|].
        rewrite confirm_onKey_stops in Hr by done. by injection Hr as <-. }
    destruct (Hrun (fun _ => True) (fun _ => true)) as (s0 & _ & Hl0);
      [done|done|by apply Forall_forall|].
    eexists. rewrite Hl0. simpl. split_and!; [done|done| |].
    + intros Hne.
      destruct (Hrun (valid_row opts) (fun _ => true)) as (s1 & Hv & Hl1).
      * intros s e s' Hs _ He.
        destruct (is_key "return" e) eqn:Hret;
          [by rewrite confirm_onKey_stops in He|].
        destruct (confirm_onKey_goes opts s e Hret) as (s2 & Hs2 & Hr & _).
        rewrite Hs2 in He. injection He as <-. by apply Hr.
      * unfold valid_row. destruct opts; [done|]. simpl length. lia.
      * by apply Forall_forall.
      * rewrite Hl0 in Hl1. by injection Hl1 as ->.
    + intros Hnodown.
      destruct (Hrun (fun s => s = 0%Z) (fun e => negb (is_key "down" e)))
        as (s1 & -> & Hl1).
      * intros s e s' Hs Ha He.
        destruct (is_key "return" e) eqn:Hret;
          [by rewrite confirm_onKey_stops in He|].
        destruct (confirm_onKey_goes opts s e Hret) as (s2 & Hs2 & _ & Hz).
        rewrite Hs2 in He. injection He as <-. apply Hz; [|done].
        by apply negb_true_iff.
      * done.
      * eapply Forall_impl; [exact Hnodown|]. intros e He. simpl.
        by apply negb_true_iff.
      * rewrite Hl0 in Hl1. by injection Hl1 as ->.
Qed.

Lemma confirm_resolves_on_return_witness :
  exists r,
    confirm "Delete 1 task(s)?" ["Yes, Delete"; "Cancel"]
      (terminal ([escape; up] ++ enter :: [down]))
    = (Resolved r, terminal [down])
    /\ Choice.ok r = true.
Proof.
  destruct (proj2 (confirm_resolves_on_return "Delete 1 task(s)?"
                     ["Yes, Delete"; "Cancel"] [escape; up]
                     ltac:(repeat constructor)) enter [down] eq_refl)
    as (r & Hr & _ & _ & Hok).
  exists r. split; [exact Hr|]. apply Hok. repeat constructor.
Defined.

(** ** [multiSelect] *)

Lemma toggle_NoDup x s : NoDup s -> NoDup (toggle x s).
Proof.
  intros Hs. unfold toggle, Set_add, Set_delete, Set_has.
  case_bool_decide as Hx.
  - apply NoDup_ListNoDup, List.NoDup_filter. by apply NoDup_ListNoDup.
  - apply NoDup_app. split_and!; [done| |apply NoDup_singleton].
    intros y Hy ->%list_elem_of_singleton. done.
Qed.

Lemma toggle_Forall (P : Z -> Prop) x s : P x -> Forall P s -> Forall P (toggle x s).
Proof.
  intros Hx Hs. unfold toggle, Set_add, Set_delete, Set_has.
  case_bool_decide.
  - apply Forall_forall. intros y [Hy _]%list_elem_of_In%filter_In.
    rewrite Forall_forall in Hs. by apply Hs, list_elem_of_In.
  - apply Forall_app. split; [done|]. by apply Forall_singleton.
Qed.

Lemma multiSelect_onKey_tidy options st ev st' :
  tidy options st -> multiSelect_onKey options st ev = Continue st' ->
  tidy options st'.
Proof.
  unfold tidy, valid_row, multiSelect_onKey. intros (Hc & Hnd & Hv).
  destruct (key ev) as [k|]; [|by intros [= <-]].
  repeat case_bool_decide; intros [= <-]; simpl; split_and!; try done; try lia.
  - by apply toggle_NoDup.
  - by apply toggle_Forall.
Qed.

Lemma multiSelect_onKey_result options st ev r :
  multiSelect_onKey options st ev = Resolve r ->
  (Choices.ok r = true /\ Choices.indexes r = selected st)
  \/ (Choices.ok r = false /\ Choices.indexes r = []).
Proof.
  unfold multiSelect_onKey. destruct (key ev) as [k|]; [|done].
  repeat case_bool_decide; intros [= <-]; simpl; auto.
Qed.

Lemma multiSelect_resolved
    (options : list string) (title : string) (stdin : Stdin)
    (r : Choices.t) (stdin' : Stdin) :
  options <> [] ->
  multiSelect options title stdin = (Resolved r, stdin') ->
  NoDup (Choices.indexes r)
  /\ Forall (valid_row options) (Choices.indexes r)
  /\ (Choices.ok r = false -> Choices.indexes r = []).
Proof.
  intros Hne. unfold multiSelect.
  assert (H0 : valid_row options 0).
  { unfold valid_row. destruct options; [done|]. simpl length. lia. }
  destruct (isInteractive stdin); simpl.
  - unfold await.
    destruct (listen (multiSelect_onKey options)
                {| current := 0; selected := [] |} (events stdin))
      as [[r'|] rest] eqn:E; [|done].
    intros [= <- _].
    destruct (listen_invariant (multiSelect_onKey options) (tidy options)
                (fun _ => True)
                (fun s ev s' Hs _ => multiSelect_onKey_tidy options s ev s' Hs)
                (events stdin) {| current := 0; selected := [] |} r' rest)
      as (st & ev & (Hc & Hnd & Hv) & Hr).
    + split_and!; [done|constructor|constructor].
    + by apply Forall_forall.
    + done.
    + apply multiSelect_onKey_result in Hr as [[Hok ->]|[Hok ->]].
      * split_and!; [done|done|]. congruence.
      * split_and!; [constructor|constructor|done].
  - intros [= <- _]. simpl.
    split_and!; [apply NoDup_singleton|by apply Forall_singleton|done].
Qed.

(** X18. With options, whatever standard input is, [multiSelect]
    resolves with indexes that are rows of the prompt, each at most
    once; when it declines ([escape]) the indexes are empty whatever was
    selected. *)
Theorem multiSelect_indexes_are_rows
    (options : list string) (title : string) (stdin : Stdin)
    (r : Choices.t) (stdin' : Stdin) :
  options <> [] ->
  multiSelect options title stdin = (Resolved r, stdin') ->
  NoDup (Choices.indexes r)
  /\ Forall (valid_row options) (Choices.indexes r)
  /\ (Choices.ok r = false -> Choices.indexes r = []).
Proof. apply multiSelect_resolved. Qed.

Lemma multiSelect_indexes_are_rows_witness :
  NoDup [2%Z; 0%Z] /\ Forall (valid_row Sample.ABC) [2%Z; 0%Z].
Proof.
  destruct (multiSelect_indexes_are_rows Sample.ABC "Tasks"
              (terminal [down; space; down; space; up; space; up; space; enter])
              {| Choices.indexes := [2%Z; 0%Z]; Choices.ok := true |}
              (terminal []))
    as (Hnd & Hv & _).
  - discriminate.
  - vm_compute. reflexivity.
  - split; [exact Hnd | exact Hv].
Defined.

End PromptMore.

(** * Properties of the menu handlers *)

Module AppFacts.
Import Keypress Prompt TaskStorage StoreFacts StoreMore.

(** ** Deleting the chosen rows *)

Lemma chosen_cons rows i indexes :
  chosen rows (i :: indexes)
  = match Js.at_index rows i with
    | Some t => t :: chosen rows indexes
    | None => chosen rows indexes
    end.
Proof. unfold chosen. simpl. by destruct (Js.at_index rows i). Qed.

Lemma delete_each_stored rows indexes : forall d,
  stored (App.delete_each rows indexes d)
  = List.filter (fun t => negb (bool_decide (id t ∈ chosen_ids rows indexes)))
      (stored d).
Proof.
  unfold chosen_ids.
  induction indexes as [|i indexes IH]; intros d.
  - symmetry. by apply filter_all, Forall_forall.
  - change (App.delete_each rows (i :: indexes) d)
      with (App.delete_each rows indexes
              match Js.at_index rows i with
              | Some t => exec (delete (id t)) d
              | None => d
              end).
    rewrite IH, chosen_cons. destruct (Js.at_index rows i) as [t|]; [|done].
    rewrite stored_delete, QueryFacts.filter_filter. apply filter_ext.
    intros x. simpl. rewrite <- negb_orb. f_equal.
    apply eq_true_iff_eq.
    rewrite orb_true_iff, !bool_decide_eq_true, elem_of_cons. done.
Qed.

(** ** Completing the chosen rows *)

Lemma locate_unique (tasks : list Task) j t :
  NoDup (map id tasks) -> tasks !! j = Some t ->
  locate (id t) tasks = Some (j, t).
Proof.
  intros Hnd Hj. unfold locate. apply list_find_Some. split_and!; [done..|].
  intros j' y Hj' Hlt Heq.
  assert (j' = j); [|lia].
  apply (NoDup_lookup (map id tasks) j' j (id t)); [done| |].
  - change (map id tasks) with (id <$> tasks).
    rewrite list_lookup_fmap, Hj'. simpl. by rewrite Heq.
  - change (map id tasks) with (id <$> tasks).
    by rewrite list_lookup_fmap, Hj.
Qed.

Lemma completed_if_chosen_id now done t t' :
  completed_if_chosen now done t t' -> id t' = id t.
Proof.
  unfold completed_if_chosen. case_bool_decide.
  - by intros (_ & k & ->).
  - by intros ->.
Qed.

Lemma completed_if_chosen_ids now done (S cur : list Task) :
  Forall2 (completed_if_chosen now done) S cur -> map id cur = map id S.
Proof.
  induction 1 as [|t t' S cur Ht _ IH]; simpl; [done|].
  by rewrite IH, (completed_if_chosen_id _ _ _ _ Ht).
Qed.

(** One more task completed. *)
Lemma completed_if_chosen_step now done (S : list Task) d t k :
  NoDup (map id S) ->
  Forall2 (completed_if_chosen now done) S (stored d) ->
  t ∈ S -> completed t = false -> id t ∉ done ->
  Forall2 (completed_if_chosen now (id t :: done)) S
    (stored (exec (toggleComplete (id t) (now k)) d)).
Proof.
  intros Hnd Hrel Ht Hpending Hnew.
  apply list_elem_of_lookup in Ht as [j Hj].
  pose proof (completed_if_chosen_ids _ _ _ _ Hrel) as Hids.
  apply Forall2_same_length_lookup in Hrel as [Hlen Hrel].
  assert (Hcur : stored d !! j = Some t).
  { destruct (lookup_lt_is_Some_2 (stored d) j) as [t' Ht'].
    - rewrite <- Hlen. by eapply lookup_lt_Some.
    - pose proof (Hrel j t t' Hj Ht') as Hr. unfold completed_if_chosen in Hr.
      rewrite bool_decide_eq_false_2 in Hr by done. by rewrite Ht', Hr. }
  assert (Hloc : locate (id t) (stored d) = Some (j, t)).
  { apply locate_unique; [by rewrite Hids|done]. }
  rewrite stored_toggleComplete, Hloc.
  apply Forall2_same_length_lookup. split; [by rewrite length_insert|].
  intros i x y Hx Hy. unfold completed_if_chosen.
  destruct (decide (i = j)) as [->|Hne].
  - rewrite list_lookup_insert_eq in Hy by by eapply lookup_lt_Some.
    assert (x = t) as -> by congruence. injection Hy as <-.
    rewrite bool_decide_eq_true_2 by left. eauto.
  - rewrite list_lookup_insert_ne in Hy by done.
    pose proof (Hrel i x y Hx Hy) as Hr. unfold completed_if_chosen in Hr.
    assert (Hid : id x <> id t).
    { intros Heq. apply Hne.
      apply (NoDup_lookup (map id S) i j (id t)); [done| |].
      - change (map id S) with (id <$> S).
        rewrite list_lookup_fmap, Hx. simpl. by rewrite Heq.
      - change (map id S) with (id <$> S). by rewrite list_lookup_fmap, Hj. }
    rewrite (bool_decide_ext (id x ∈ id t :: done) (id x ∈ done)); [done|].
    rewrite elem_of_cons. tauto.
Qed.

Lemma completed_if_chosen_perm now done done' t t' :
  (forall i, i ∈ done <-> i ∈ done') ->
  completed_if_chosen now done t t' -> completed_if_chosen now done' t t'.
Proof.
  intros H. unfold completed_if_chosen.
  by rewrite (bool_decide_ext _ _ (H (id t))).
Qed.

Lemma toggle_each_stored now (S rows : list Task) indexes : forall k d done,
  NoDup (map id S) ->
  Forall (fun t => t ∈ S /\ completed t = false) rows ->
  Forall2 (completed_if_chosen now done) S (stored d) ->
  NoDup (chosen_ids rows indexes) ->
  (forall i, i ∈ chosen_ids rows indexes -> i ∉ done) ->
  Forall2 (completed_if_chosen now (done ++ chosen_ids rows indexes)) S
    (stored (App.toggle_each rows now k indexes d)).
Proof.
  unfold chosen_ids.
  induction indexes as [|i indexes IH]; intros k d done Hnd Hrows Hrel Hsel Hnew.
  - simpl. by rewrite app_nil_r.
  - change (App.toggle_each rows now k (i :: indexes) d)
      with (App.toggle_each rows now (Datatypes.S k) indexes
              match Js.at_index rows i with
              | Some t => exec (toggleComplete (id t) (now k)) d
              | None => d
              end).
    rewrite chosen_cons in *.
    destruct (Js.at_index rows i) as [t|] eqn:Hi; [|by apply IH].
    simpl in *. apply NoDup_cons in Hsel as [Ht Hsel].
    assert (Htin : t ∈ rows).
    { unfold Js.at_index in Hi. destruct (i <? 0)%Z; [done|].
      by eapply list_elem_of_lookup_2. }
    rewrite Forall_forall in Hrows. destruct (Hrows t Htin) as [HtS Hpend].
    eapply Forall2_impl.
    + apply (IH (Datatypes.S k) _ (id t :: done)); try done.
      * by apply Forall_forall.
      * apply completed_if_chosen_step; try done.
        apply Hnew. by left.
      * intros j Hj [->|Hd]%elem_of_cons; [done|].
        by apply (Hnew j); [right|].
    + intros x y. apply completed_if_chosen_perm. intros j.
      rewrite !elem_of_app, !elem_of_cons. tauto.
Qed.

Lemma at_index_lookup {A} (rows : list A) i t :
  Js.at_index rows i = Some t -> (0 <= i)%Z /\ rows !! Z.to_nat i = Some t.
Proof.
  unfold Js.at_index. destruct (Z.ltb_spec i 0); [done|]. intros Hi. split; [lia|done].
Qed.

Lemma chosen_ids_NoDup rows indexes :
  NoDup (map id rows) -> NoDup indexes -> NoDup (chosen_ids rows indexes).
Proof.
  intros Hrows. unfold chosen_ids.
  induction 1 as [|i indexes Hi Hnd IH]; [constructor|].
  rewrite chosen_cons. destruct (Js.at_index rows i) as [t|] eqn:E; [|done].
  simpl. apply NoDup_cons. split; [|done].
  intros [t' [Hid Ht']]%list_elem_of_fmap.
  unfold chosen in Ht'. apply list_elem_of_omap in Ht' as (i' & Hi' & E').
  apply at_index_lookup in E as [H0 E]. apply at_index_lookup in E' as [H0' E'].
  assert (Z.to_nat i = Z.to_nat i').
  { apply (NoDup_lookup (map id rows) _ _ (id t)); [done| |].
    - change (map id rows) with (id <$> rows). by rewrite list_lookup_fmap, E.
    - change (map id rows) with (id <$> rows).
      rewrite list_lookup_fmap, E'. simpl. by rewrite Hid. }
  assert (i = i') by lia. congruence.
Qed.

Section Delete.
Context (Date_getTime : string -> option Z).
Context (localeCompare : string -> string -> Z).
Context (row : Task -> string).
Context (question : string -> nat -> string).

Abbreviation sorted := (App.sorted Date_getTime localeCompare).
Abbreviation deleteTask := (App.deleteTask Date_getTime localeCompare row question).

Lemma sorted_elements_of tasks sortBy :
  sorted tasks sortBy
  = sorted_elements Date_getTime localeCompare tasks sortBy false.
Proof.
  unfold App.sorted.
  rewrite (SortFacts.sort_allocates Date_getTime localeCompare
             {[1%positive := tasks]} 1%positive tasks sortBy false)
    by apply lookup_singleton_eq.
  by rewrite lookup_insert_eq.
Qed.

Lemma sorted_Permutation tasks sortBy : sorted tasks sortBy ≡ₚ tasks.
Proof. rewrite sorted_elements_of. apply SortFacts.Array_sort_Permutation. Qed.


End Delete.

Section Complete.
Context (toLowerCase : string -> string).
Context (row : Task -> string).

Abbreviation completeTask := (App.completeTask toLowerCase row).


End Complete.

Section Clear.
Context (question : string -> nat -> string).

Abbreviation clearCompleted := (App.clearCompleted question).

(** ** Clearing *)


End Clear.

Section Headless.
Context (Date_getTime : string -> option Z).
Context (localeCompare : string -> string -> Z).
Context (toLowerCase : string -> string).
Context (row : Task -> string).
Context (question : string -> nat -> string).

Abbreviation sorted' := (App.sorted Date_getTime localeCompare).
Abbreviation deleteTask' := (App.deleteTask Date_getTime localeCompare row question).
Abbreviation completeTask' := (App.completeTask toLowerCase row).
Abbreviation clearCompleted' := (App.clearCompleted question).

(** ** Without a terminal *)

Lemma at_index_0 {A} (rows : list A) : Js.at_index rows 0 = head rows.
Proof. by destruct rows. Qed.


End Headless.




End AppFacts.

